(** * ci/translate: the translation dictionary synchroniser

    A shallow embedding of [ci/translate/translate.go]: the dictionary
    data model, the DeepL client [fetchTranslation], the sync engine
    ([autoTranslate], [autoTranslateKeyForLang]), the dictionary store
    ([loadTranslationFile], [saveTranslationFile]) and the renderer
    ([ToJSON], [renderJSFile], the tail of [main]).

    Conventions of the embedding:
    - a Go [map[string]T] is an [option (gmap string T)]: [None] is the nil
      map, which reads as empty and cannot be written to;
    - a Go pointer [*translationMapping] is an [option translationMapping],
      [None] being the nil pointer.  Every pointer of a decoded dictionary
      is a fresh allocation, so two language keys never share a mapping and
      a write through [tf.Translations[lang]] updates that one entry;
    - a Go function returning [error] returns a [result]; a function that
      can also panic returns a [completion];
    - Go leaves the order of [range] over a map unspecified.  The order a
      run takes is an explicit argument of the sync engine, and the
      theorems quantify over every order [range] can produce
      ([rangeOrder]);
    - calls to the translation client are recorded in a trace, in the
      order they are issued. *)

From stdpp Require Import gmap strings list fin_maps sorting pretty.

(** ** Values of Go's [any] as the YAML decoder produces them *)

(** [AStrings] is a [[]string], the type [autoTranslateKeyForLang] stores
    for a translated sequence; [ASlice] is a [[]any], the type the YAML
    decoder produces for a sequence.  [AOther goType repr] stands for a
    value of any other dynamic type (int, bool, float64, a nested map, ...):
    [goType] is what [%T] prints for it and [repr] its textual form; the
    program never looks inside such a value. *)
#[warnings="-register-all"]
Inductive any : Type :=
  | ANil
  | AString (s : string)
  | ASlice (l : list any)
  | AStrings (l : list string)
  | AOther (goType repr : string).

(** What [fmt]'s [%T] prints. *)
Definition typeName (v : any) : string :=
  match v with
  | ANil => "<nil>"
  | AString _ => "string"
  | ASlice _ => "[]interface {}"
  | AStrings _ => "[]string"
  | AOther ty _ => ty
  end.

(** [v != nil] on an interface value.  A [[]string] stored in an [any] is
    never the nil interface, even when the slice itself is nil. *)
Definition isNil (v : any) : bool :=
  match v with ANil => true | _ => false end.

(** [type translation map[string]any] *)
Abbreviation translation := (option (gmap string any)).

(** [t[key]]: a missing key and a nil map both read as the nil interface. *)
Definition index (t : translation) (key : string) : any :=
  match t with
  | None => ANil
  | Some m => default ANil (m !! key)
  end.

(** [translationMapping] *)
Record translationMapping : Type := {
  DeeplLanguage : string;
  LanguageKey : string;
  Translations : translation
}.

(** [translationFile].  Its field [Translations] is [Languages] here: both
    structs name a field [Translations] and Rocq keeps record fields in one
    name space. *)
Record translationFile : Type := {
  Reference : translationMapping;
  Languages : option (gmap string (option translationMapping))
}.

(** [cfg] *)
Record config : Type := {
  DeeplAPIEndpoint : string;
  DeeplAPIKey : string;
  OutputFile : string;
  TranslationFile : string;
  LogLevel : string;
  VersionAndExit : bool
}.

(** ** Errors, results and panics *)

(** Errors of [github.com/pkg/errors]: [New] also stands for an error a
    library returned, [Wrap e msg] is [errors.Wrap(e, msg)]. *)
Inductive error : Type :=
  | New (msg : string)
  | Wrap (cause : error) (msg : string).

(** [err.Error()] *)
Fixpoint Error (e : error) : string :=
  match e with
  | New msg => msg
  | Wrap cause msg => msg +:+ ": " +:+ Error cause
  end.

(** [errors.Cause(err)] *)
Fixpoint Cause (e : error) : error :=
  match e with
  | New msg => New msg
  | Wrap cause _ => Cause cause
  end.

Inductive result (A : Type) : Type :=
  | Ok (a : A)
  | Err (e : error).
Arguments Ok {A} a.
Arguments Err {A} e.

Inductive completion (A : Type) : Type :=
  | Return (a : A)
  | Panic (msg : string).
Arguments Return {A} a.
Arguments Panic {A} msg.

(** [errors.Wrap(err, msg)] returns nil when [err] is nil. *)
Definition wrapResult {A : Type} (r : result A) (msg : string) : result A :=
  match r with
  | Ok a => Ok a
  | Err e => Err (Wrap e msg)
  end.

(** The message of [errors.Wrapf(err, "translating %s:%s", lang, key)]. *)
Definition translatingMsg (lang key : string) : string :=
  "translating " +:+ lang +:+ ":" +:+ key.

(** The error of the [default] branch of the type switch. *)
Definition unexpectedType (v : any) : error :=
  New ("unexpected translation type " +:+ typeName v).

Definition nilDeref : string :=
  "runtime error: invalid memory address or nil pointer dereference".

Definition nilMapWrite : string :=
  "assignment to entry in nil map".

(** The panic of the unchecked assertion [str.(string)]. *)
Definition notAString (v : any) : string :=
  "interface conversion: interface {} is " +:+
  match v with ANil => "nil" | _ => typeName v end +:+ ", not string".

(** ** The translation client *)

(** [strings.ToUpper] on the ASCII letters, which is what language codes
    are made of. *)
Definition upperAscii (c : Ascii.ascii) : Ascii.ascii :=
  let n := Ascii.nat_of_ascii c in
  if (97 <=? n)%nat && (n <=? 122)%nat then Ascii.ascii_of_nat (n - 32) else c.

Fixpoint ToUpper (s : string) : string :=
  match s with
  | EmptyString => EmptyString
  | String c r => String (upperAscii c) (ToUpper r)
  end.

(** The request as [fetchTranslation] builds it.  [Form] is the body,
    [params.Encode()], as its key/value pairs in the key order [Encode]
    emits; the percent-encoding of the pairs is not modelled. *)
Record request : Type := {
  Method : string;
  URL : string;
  Header : list (string * string);
  Form : list (string * string)
}.

Record response : Type := {
  StatusCode : Z;
  Body : string
}.

(** The request [fetchTranslation] sends to the parsed endpoint [u]. *)
Definition buildRequest (cfg : config) (u srcLang destLang text : string)
  : request :=
  {| Method := "POST";
     URL := u;
     Header :=
       [("Authorization", "DeepL-Auth-Key" +:+ " " +:+ DeeplAPIKey cfg);
        ("Content-Type", "application/x-www-form-urlencoded")];
     Form :=
       [("source_lang", ToUpper srcLang);
        ("tag_handling", "html");
        ("target_lang", ToUpper destLang);
        ("text", text)] |}.

Section Client.

Variable cfg : config.
(** [http.NewRequestWithContext] rejects an endpoint it cannot parse. *)
Variable parseURL : string → result string.
(** [http.DefaultClient.Do] under the 10 second deadline: an error stands
    for any transport failure, the deadline included.  A response with a
    non-2xx status is a response, not an error. *)
Variable Do : request → result response.
(** [json.NewDecoder(resp.Body).Decode(&payload)], as the [Text] fields of
    [payload.Translations] in order. *)
Variable decodePayload : string → result (list string).

Definition fetchTranslation (srcLang destLang text : string) : result string :=
  match parseURL (DeeplAPIEndpoint cfg) with
  | Err err => Err (Wrap err "creating request")
  | Ok u =>
      match Do (buildRequest cfg u srcLang destLang text) with
      | Err err => Err (Wrap err "executing request")
      | Ok resp =>
          match decodePayload (Body resp) with
          | Err err => Err (Wrap err "decoding DeepL response")
          | Ok translations =>
              match translations with
              | [text'] => Ok text'
              | _ =>
                  Err (New ("unexpected number of translations: " +:+
                            pretty (length translations)))
              end
          end
      end
  end.

End Client.

(** A response the HTTP protocol counts as a success. *)
Definition successStatus (resp : response) : Prop :=
  (200 ≤ StatusCode resp < 300)%Z.

(** "The call fails whenever the transport fails or the HTTP response is a
    non-success response, and it fails whenever the decoded response body
    does not contain exactly one translation result; it returns the single
    translated text otherwise." *)
Definition clientChecksResponse (cfg : config)
    (parseURL : string → result string)
    (Do : request → result response)
    (decodePayload : string → result (list string)) : Prop :=
  ∀ u srcLang destLang text,
    parseURL (DeeplAPIEndpoint cfg) = Ok u →
    let req := buildRequest cfg u srcLang destLang text in
    let r := fetchTranslation cfg parseURL Do decodePayload srcLang destLang text in
    (∀ err, Do req = Err err → ∃ e, r = Err e) ∧
    (∀ resp, Do req = Ok resp → ¬ successStatus resp → ∃ e, r = Err e) ∧
    (∀ resp ts, Do req = Ok resp → decodePayload (Body resp) = Ok ts →
                length ts ≠ 1 → ∃ e, r = Err e) ∧
    (∀ resp t, Do req = Ok resp → successStatus resp →
               decodePayload (Body resp) = Ok [t] → r = Ok t).

(** ** The sync engine *)

(** One call of the client: source language, destination language, text. *)
Abbreviation call := (string * string * string)%type.

(** [tf.Translations[lang]], a pointer: nil when the map is nil, when it has
    no such key, or when the key holds a nil pointer. *)
Definition langPtr (tf : translationFile) (lang : string)
  : option translationMapping :=
  match Languages tf with
  | None => None
  | Some ls => default None (ls !! lang)
  end.

(** A write through the pointer [tf.Translations[lang]]. *)
Definition updateLang (f : translationMapping → translationMapping)
    (lang : string) (tf : translationFile) : translationFile :=
  {| Reference := Reference tf;
     Languages := alter (fmap f) lang <$> Languages tf |}.

(** [m.Translations = make(map[string]any)] when it is nil. *)
Definition makeIfNil (m : translationMapping) : translationMapping :=
  {| DeeplLanguage := DeeplLanguage m;
     LanguageKey := LanguageKey m;
     Translations := Some (default ∅ (Translations m)) |}.

(** [m.Translations[key] = v]; the map is never nil where the program does
    this. *)
Definition setKey (key : string) (v : any) (m : translationMapping)
  : translationMapping :=
  {| DeeplLanguage := DeeplLanguage m;
     LanguageKey := LanguageKey m;
     Translations := Some (<[key := v]> (default ∅ (Translations m))) |}.

Section Sync.

Variable cfg : config.
(** The translation client: [fetchTranslation] over the network, or a
    stub, which answers by its arguments alone. *)
Variable fetch : string → string → string → result string.

(** The loop of the [[]any] branch: [ts] is the slice built so far. *)
Fixpoint translateSlice (src dst : string) (l : list any) (ts : list string)
  : completion (result (list string)) * list call :=
  match l with
  | [] => (Return (Ok ts), [])
  | str :: rest =>
      match str with
      | AString s =>
          match fetch src dst s with
          | Err err => (Return (Err err), [(src, dst, s)])
          | Ok tStr =>
              let '(r, cs) := translateSlice src dst rest (ts ++ [tStr]) in
              (r, (src, dst, s) :: cs)
          end
      | _ => (Panic (notAString str), [])
      end
  end.

Definition autoTranslateKeyForLang (tf : translationFile) (lang key : string)
  : completion (option error) * translationFile * list call :=
  match langPtr tf lang with
  | None => (Panic nilDeref, tf, [])
  | Some m =>
      if isNil (index (Translations m) key) then
        let tf1 := updateLang makeIfNil lang tf in
        let src := DeeplLanguage (Reference tf) in
        let dst := DeeplLanguage m in
        match index (Translations (Reference tf)) key with
        | AString typedSrc =>
            match fetch src dst typedSrc with
            | Ok t =>
                (Return None,
                 updateLang (setKey key (AString t)) lang tf1,
                 [(src, dst, typedSrc)])
            | Err err =>
                (Return (Some (Wrap err (translatingMsg lang key))),
                 updateLang (setKey key (AString "")) lang tf1,
                 [(src, dst, typedSrc)])
            end
        | ASlice typedSrc =>
            match translateSlice src dst typedSrc [] with
            | (Return (Ok ts), cs) =>
                (Return None,
                 updateLang (setKey key (AStrings ts)) lang tf1, cs)
            | (Return (Err err), cs) =>
                (Return (Some (Wrap err (translatingMsg lang key))), tf1, cs)
            | (Panic p, cs) => (Panic p, tf1, cs)
            end
        | v => (Return (Some (unexpectedType v)), tf1, [])
        end
      else (Return None, tf, [])
  end.

(** The inner loop of [autoTranslate], over the collected [keys]. *)
Fixpoint translateKeys (tf : translationFile) (lang : string)
    (keys : list string)
  : completion (option error) * translationFile * list call :=
  match keys with
  | [] => (Return None, tf, [])
  | key :: rest =>
      match autoTranslateKeyForLang tf lang key with
      | (Return None, tf', cs) =>
          let '(r, tf'', cs') := translateKeys tf' lang rest in
          (r, tf'', cs ++ cs')
      | (Return (Some err), tf', cs) =>
          (Return (Some (Wrap err (translatingMsg lang key))), tf', cs)
      | (Panic p, tf', cs) => (Panic p, tf', cs)
      end
  end.

(** The outer loop of [autoTranslate], over the languages in the order
    [range tf.Translations] yields them. *)
Fixpoint translateLangs (tf : translationFile) (langs keys : list string)
  : completion (option error) * translationFile * list call :=
  match langs with
  | [] => (Return None, tf, [])
  | lang :: rest =>
      match langPtr tf lang with
      | None => (Panic nilDeref, tf, [])
      | Some m =>
          if decide (DeeplLanguage m = "") then translateLangs tf rest keys
          else
            match translateKeys tf lang keys with
            | (Return None, tf', cs) =>
                let '(r, tf'', cs') := translateLangs tf' rest keys in
                (r, tf'', cs ++ cs')
            | other => other
            end
      end
  end.

(** [autoTranslate]: [keyOrder] is the order [range
    tf.Reference.Translations] yields the keys in, [langOrder] the order
    [range tf.Translations] yields the languages in. *)
Definition autoTranslate (langOrder keyOrder : list string)
    (tf : translationFile)
  : completion (option error) * translationFile * list call :=
  if decide (DeeplAPIKey cfg = "") then (Return None, tf, [])
  else translateLangs tf langOrder keyOrder.

(** *** What a successful run stores, cell by cell

    The functions below describe one cell (language, key) of the
    dictionary; the theorems relate the loops above to them. *)

(** The value stored for a missing key whose reference value is [v], when
    every call it needs succeeds. *)
Definition filled (src dst : string) (v : any) : option any :=
  match v with
  | AString s =>
      match fetch src dst s with
      | Ok t => Some (AString t)
      | Err _ => None
      end
  | ASlice l =>
      match translateSlice src dst l [] with
      | (Return (Ok ts), _) => Some (AStrings ts)
      | _ => None
      end
  | _ => None
  end.

(** The calls issued for a reference value [v]. *)
Definition valueCalls (src dst : string) (v : any) : list call :=
  match v with
  | AString s => [(src, dst, s)]
  | ASlice l => (translateSlice src dst l []).2
  | _ => []
  end.

Section Cell.

Variable ref : translationMapping.

(** The key needs no call, or every call it needs succeeds. *)
Definition cellOk (m : translationMapping) (key : string) : bool :=
  if isNil (index (Translations m) key) then
    bool_decide (is_Some (filled (DeeplLanguage ref) (DeeplLanguage m)
                            (index (Translations ref) key)))
  else true.

Definition fillKey (m : translationMapping) (key : string)
  : translationMapping :=
  if isNil (index (Translations m) key) then
    match filled (DeeplLanguage ref) (DeeplLanguage m)
            (index (Translations ref) key) with
    | Some v => setKey key v m
    | None => m
    end
  else m.

Definition cellCalls (m : translationMapping) (key : string) : list call :=
  if isNil (index (Translations m) key) then
    valueCalls (DeeplLanguage ref) (DeeplLanguage m)
      (index (Translations ref) key)
  else [].

End Cell.

(** One language entry: skipped without a target-language code. *)
Definition langOk (tf : translationFile) (keys : list string)
    (lang : string) : bool :=
  match langPtr tf lang with
  | None => false
  | Some m =>
      if decide (DeeplLanguage m = "") then true
      else forallb (cellOk (Reference tf) m) keys
  end.

Definition fillEntry (ref : translationMapping) (keys : list string)
    (m : translationMapping) : translationMapping :=
  if decide (DeeplLanguage m = "") then m else foldl (fillKey ref) m keys.

Definition fillLang (keys : list string) (tf : translationFile)
    (lang : string) : translationFile :=
  updateLang (fillEntry (Reference tf) keys) lang tf.

Definition langCalls (tf : translationFile) (keys : list string)
    (lang : string) : list call :=
  match langPtr tf lang with
  | None => []
  | Some m =>
      if decide (DeeplLanguage m = "") then []
      else keys ≫= cellCalls (Reference tf) m
  end.

End Sync.

(** An order [range] can yield for a map: every key once. *)
Definition rangeOrder {A : Type} (m : option (gmap string A))
    (order : list string) : Prop :=
  NoDup order ∧ ∀ k, k ∈ order ↔ is_Some (default ∅ m !! k).

(** ** Structural equality of dictionaries *)

(** The two shapes a value can take in the spec's data model. *)
Inductive variant : Type := Scalar | Sequence | Unsupported.

Definition variantOf (v : any) : variant :=
  match v with
  | AString _ => Scalar
  | ASlice _ | AStrings _ => Sequence
  | _ => Unsupported
  end.

(** The texts of a sequence of text, whichever slice type holds them. *)
Fixpoint sliceTexts (l : list any) : option (list string) :=
  match l with
  | [] => Some []
  | AString s :: rest => (s ::.) <$> sliceTexts rest
  | _ => None
  end.

Definition texts (v : any) : option (list string) :=
  match v with
  | ASlice l => sliceTexts l
  | AStrings l => Some l
  | _ => None
  end.





(** ** The file system *)

(** The files, by path. *)
Abbreviation disk := (gmap string string).

(** What the operating system makes of the calls of one store or render
    operation: [None] where the call succeeds; [writeFails] also gives the
    number of bytes that reached the file before the failure. *)
Record faults : Type := {
  openFails : option error;
  createFails : option error;
  writeFails : option (nat * error);
  renameFails : option error
}.

Definition noFaults : faults :=
  {| openFails := None; createFails := None;
     writeFails := None; renameFails := None |}.

(** [os.Rename(from, to)] on files that exist. *)
Definition rename (from to : string) (d : disk) : disk :=
  match d !! from with
  | Some content => <[to := content]> (delete from d)
  | None => d
  end.

(** ** The dictionary store *)

Section Store.

Variable cfg : config.
(** The YAML codec of [gopkg.in/yaml.v3] on [translationFile]. *)
Variable yamlEncode : translationFile → string.
Variable yamlDecode : string → result translationFile.

Definition loadTranslationFile (io : faults) (d : disk)
  : result translationFile :=
  match openFails io with
  | Some err => Err (Wrap err "opening translation file")
  | None =>
      match d !! TranslationFile cfg with
      | None => Err (Wrap (New "no such file or directory")
                       "opening translation file")
      | Some content =>
          wrapResult (yamlDecode content) "decoding translation file"
      end
  end.

Definition saveTranslationFile (io : faults) (tf : translationFile)
    (d : disk) : result unit * disk :=
  let tmp := TranslationFile cfg +:+ ".tmp" in
  match createFails io with
  | Some err => (Err (Wrap err "creating tempfile"), d)
  | None =>
      let d1 := <[tmp := ""]> d in
      match writeFails io with
      | Some (n, err) =>
          (Err (Wrap err "encoding translation file"),
           <[tmp := String.substring 0 n (yamlEncode tf)]> d1)
      | None =>
          let d2 := <[tmp := yamlEncode tf]> d1 in
          match renameFails io with
          | Some err => (Err (Wrap err "moving file in place"), d2)
          | None => (Ok (), rename tmp (TranslationFile cfg) d2)
          end
      end
  end.

End Store.

(** ** The renderer *)

(** [strings.ReplaceAll(s, old, new)] for a non-empty [old]: [skip] counts
    the bytes of a match still to pass over. *)
Fixpoint replaceAllFrom (old new : string) (skip : nat) (s : string) : string :=
  match s with
  | EmptyString => EmptyString
  | String c r =>
      match skip with
      | S k => replaceAllFrom old new k r
      | O =>
          if String.prefix old s then
            new +:+ replaceAllFrom old new (String.length old - 1) r
          else String c (replaceAllFrom old new 0 r)
      end
  end.

Definition ReplaceAll (s old new : string) : string :=
  replaceAllFrom old new 0 s.

Definition nl : string := String (Ascii.ascii_of_nat 10) EmptyString.

(** The text of [jsTemplate] before the [range], the text of one turn of
    the [range] around its two actions, and the text after [end]; the trim
    markers of the template are applied. *)
Definition jsHeader : string :=
  "// Auto-Generated, do not edit!" +:+ nl +:+ nl +:+ "export default {".

Definition blockOpen (lang : string) : string :=
  nl +:+ "  '" +:+ lang +:+ "': JSON.parse('".

Definition blockClose : string := "'),".

Definition jsFooter : string := nl +:+ "}" +:+ nl.

Definition jsBlock (lang json : string) : string :=
  blockOpen lang +:+ json +:+ blockClose.

(** The order [text/template] ranges over a map with string keys in:
    sorted. *)
Definition sortedKeys {A : Type} (m : gmap string A) : list string :=
  merge_sort String.le (map_to_list m).*1.

Section Render.

Variable cfg : config.
(** [json.Marshal] on a [translation]. *)
Variable jsonMarshal : translation → result string.

(** [translation.ToJSON]: the string and the error, as Go returns both. *)
Definition ToJSON (t : translation) : string * option error :=
  match jsonMarshal t with
  | Ok j => (ReplaceAll j "'" "\'", None)
  | Err err => (ReplaceAll "" "'" "\'", Some (Wrap err "marshalling JSON"))
  end.

(** The turns of the [range] of the template: the text written, and the
    error that stopped the execution, if any. *)
Fixpoint renderBlocks (ls : gmap string (option translationMapping))
    (langs : list string) : string * option error :=
  match langs with
  | [] => ("", None)
  | lang :: rest =>
      match default None (ls !! lang) with
      | None =>
          (blockOpen lang,
           Some (New "nil pointer evaluating *main.translationMapping.Translations"))
      | Some m =>
          match ToJSON (Translations m) with
          | (_, Some err) =>
              (blockOpen lang, Some (Wrap err "error calling ToJSON"))
          | (j, None) =>
              let '(out, err) := renderBlocks ls rest in
              (jsBlock lang j +:+ out, err)
          end
      end
  end.

(** [tpl.Execute(f, tf)] *)
Definition executeTemplate (tf : translationFile) : string * option error :=
  let ls := default ∅ (Languages tf) in
  match renderBlocks ls (sortedKeys ls) with
  | (out, None) => (jsHeader +:+ out +:+ jsFooter, None)
  | (out, Some err) => (jsHeader +:+ out, Some err)
  end.

Definition renderJSFile (io : faults) (tf : translationFile) (d : disk)
  : result unit * disk :=
  let tmp := OutputFile cfg +:+ ".tmp" in
  match createFails io with
  | Some err => (Err (Wrap err "creating tempfile"), d)
  | None =>
      let d1 := <[tmp := ""]> d in
      match executeTemplate tf, writeFails io with
      | (out, _), Some (n, err) =>
          (Err (Wrap err "rendering js template"),
           <[tmp := String.substring 0 n out]> d1)
      | (out, Some err), None =>
          (Err (Wrap err "rendering js template"), <[tmp := out]> d1)
      | (out, None), None =>
          let d2 := <[tmp := out]> d1 in
          match renameFails io with
          | Some err => (Err (Wrap err "moving file in place"), d2)
          | None => (Ok (), rename tmp (OutputFile cfg) d2)
          end
      end
  end.

End Render.

(** ** Single-quoted literals *)

Definition apostrophe : Ascii.ascii := Ascii.ascii_of_nat 39.
Definition backslash : Ascii.ascii := Ascii.ascii_of_nat 92.

Definition isLineEnd (c : Ascii.ascii) : bool :=
  Ascii.eqb c (Ascii.ascii_of_nat 10) || Ascii.eqb c (Ascii.ascii_of_nat 13).



(** [s] can stand between the quotes of a single-quoted JavaScript string
    literal: a backslash takes the character after it with it, and outside
    such a pair there is no apostrophe and no line end. *)
Fixpoint literalBody (s : string) : bool :=
  match s with
  | EmptyString => true
  | String c r =>
      if Ascii.eqb c backslash then
        match r with
        | EmptyString => false
        | String _ r' => literalBody r'
        end
      else if Ascii.eqb c apostrophe then false
      else if isLineEnd c then false
      else literalBody r
  end.

(** The shape of the text [json.Marshal] returns, as far as the literal is
    concerned: a backslash starts an escape, whose second character is no
    apostrophe (JSON has no such escape), and there is no line end outside
    an escape. *)
Fixpoint jsonShaped (s : string) : bool :=
  match s with
  | EmptyString => true
  | String c r =>
      if Ascii.eqb c backslash then
        match r with
        | EmptyString => false
        | String e r' => negb (Ascii.eqb e apostrophe) && jsonShaped r'
        end
      else if isLineEnd c then false
      else jsonShaped r
  end.


(** ** The pipeline *)

(** How the process ends: [Fatal] is [logrus.Fatal], which logs and exits
    with status 1. *)
Inductive exit : Type :=
  | ExitOk
  | Fatal (msg : string) (err : error)
  | Crash (panic : string).

(** The render view: [tf.Translations[tf.Reference.LanguageKey] =
    &tf.Reference], which panics on a nil map. *)
Definition renderView (tf : translationFile) : completion translationFile :=
  match Languages tf with
  | None => Panic nilMapWrite
  | Some ls =>
      Return {| Reference := Reference tf;
                Languages :=
                  Some (<[LanguageKey (Reference tf) := Some (Reference tf)]> ls) |}
  end.

Section Main.

Variable cfg : config.
Variable fetch : string → string → string → result string.
Variable yamlEncode : translationFile → string.
Variable yamlDecode : string → result translationFile.
Variable jsonMarshal : translation → result string.

(** [main] after [initApp]: [loadIO], [saveIO] and [renderIO] are what the
    operating system does to the three file operations, [langOrder] and
    [keyOrder] the orders [autoTranslate] ranges in. *)
Definition main (loadIO saveIO renderIO : faults)
    (langOrder keyOrder : list string) (d : disk)
  : exit * disk * list call :=
  if VersionAndExit cfg then (ExitOk, d, [])
  else
    match loadTranslationFile cfg yamlDecode loadIO d with
    | Err err => (Fatal "loading translation file" err, d, [])
    | Ok tf =>
        match autoTranslate cfg fetch langOrder keyOrder tf with
        | (Panic p, _, cs) => (Crash p, d, cs)
        | (Return (Some err), _, cs) =>
            (Fatal "adding missing translations" err, d, cs)
        | (Return None, tf1, cs) =>
            match saveTranslationFile cfg yamlEncode saveIO tf1 d with
            | (Err err, d1) => (Fatal "saving translation file" err, d1, cs)
            | (Ok _, d1) =>
                match renderView tf1 with
                | Panic p => (Crash p, d1, cs)
                | Return tf2 =>
                    match renderJSFile cfg jsonMarshal renderIO tf2 d1 with
                    | (Err err, d2) => (Fatal "rendering JS output" err, d2, cs)
                    | (Ok _, d2) => (ExitOk, d2, cs)
                    end
                end
            end
        end
    end.

End Main.

(** ** What a run keeps *)

(** [entryKept m m']: every key of [m] is a key of [m'], with the same value
    unless the value was null. *)
Definition entryKept (m m' : translationMapping) : Prop :=
  DeeplLanguage m' = DeeplLanguage m ∧
  LanguageKey m' = LanguageKey m ∧
  ∀ k v, default ∅ (Translations m) !! k = Some v →
         is_Some (default ∅ (Translations m') !! k) ∧
         (isNil v = false → default ∅ (Translations m') !! k = Some v).

Definition dictKept (tf tf' : translationFile) : Prop :=
  Reference tf' = Reference tf ∧
  (∀ lang, is_Some (default ∅ (Languages tf') !! lang) ↔
           is_Some (default ∅ (Languages tf) !! lang)) ∧
  ∀ lang m, langPtr tf lang = Some m →
            ∃ m', langPtr tf' lang = Some m' ∧ entryKept m m'.

(** ** The sync claims in the specification's wording *)

(** "For every target language entry that has a target-language code,
    every key of the reference exists in that entry with the same
    value-variant as the reference, and a sequence value holds the
    translations of the reference's elements, in order." *)
Definition syncFillsEveryKey (cfg : config)
    (fetch : string → string → string → result string)
    (langs keys : list string) (tf : translationFile) : Prop :=
  ∀ tf' cs lang m key v,
    autoTranslate cfg fetch langs keys tf = (Return None, tf', cs) →
    langPtr tf lang = Some m →
    DeeplLanguage m ≠ "" →
    default ∅ (Translations (Reference tf)) !! key = Some v →
    ∃ m' w,
      langPtr tf' lang = Some m' ∧
      default ∅ (Translations m') !! key = Some w ∧
      variantOf w = variantOf v ∧
      ∀ ss, texts v = Some ss →
        ∃ ts, texts w = Some ts ∧
              Forall2 (λ s t, fetch (DeeplLanguage (Reference tf))
                                (DeeplLanguage m) s = Ok t) ss ts.

(** "For every key present in a target language entry before sync, the key
    is still present with its value unchanged after sync." *)
Definition syncKeepsEveryKey (cfg : config)
    (fetch : string → string → string → result string)
    (langs keys : list string) (tf : translationFile) : Prop :=
  ∀ lang m key v,
    langPtr tf lang = Some m →
    default ∅ (Translations m) !! key = Some v →
    ∃ m', langPtr (autoTranslate cfg fetch langs keys tf).1.2 lang = Some m' ∧
          default ∅ (Translations m') !! key = Some v.

(** "If, for some missing key, the reference value is neither a scalar text
    nor an ordered sequence of text, sync fails with an unsupported-value-type
    error that names the offending key, and the target entry's mapping for
    that key is not mutated." *)
Definition syncRejectsUnsupported (cfg : config)
    (fetch : string → string → string → result string)
    (langs keys : list string) (tf : translationFile) : Prop :=
  ∀ lang m key v,
    langPtr tf lang = Some m →
    isNil (index (Translations m) key) = true →
    default ∅ (Translations (Reference tf)) !! key = Some v →
    (∀ s, v ≠ AString s) →
    texts v = None →
    ∃ tf' cs m',
      autoTranslate cfg fetch langs keys tf =
        (Return (Some (Wrap (unexpectedType v) (translatingMsg lang key))),
         tf', cs) ∧
      langPtr tf' lang = Some m' ∧
      default ∅ (Translations m') !! key = default ∅ (Translations m) !! key.

(** "Two runs on the same dictionary with the same client process languages
    and keys in the same order and issue the same sequence of calls." *)
Definition syncCallsInOneOrder (cfg : config)
    (fetch : string → string → string → result string)
    (tf : translationFile) : Prop :=
  ∀ langs keys langs' keys',
    rangeOrder (Languages tf) langs → rangeOrder (Languages tf) langs' →
    rangeOrder (Translations (Reference tf)) keys →
    rangeOrder (Translations (Reference tf)) keys' →
    (autoTranslate cfg fetch langs keys tf).2 =
    (autoTranslate cfg fetch langs' keys' tf).2.

(** ** Sample servers *)

Definition parseAny (endpoint : string) : result string := Ok endpoint.

(** A server that answers 500 with a body. *)
Definition answer500 (req : request) : result response :=
  Ok {| StatusCode := 500; Body := "translations: Hallo" |}.

(** A server that answers 200 with a body. *)
Definition answer200 (req : request) : result response :=
  Ok {| StatusCode := 200; Body := "translations: Hallo" |}.

(** A body that decodes to one translation. *)
Definition oneTranslation (body : string) : result (list string) :=
  Ok ["Hallo"].

(** ** Sample files *)

(** A codec that knows one document. *)
Definition encodeFresh (tf : translationFile) : string := "reference: en".

Definition diskOld : disk := {[ "i18n.yaml" := "reference: old" ]}.

Definition diskFull : faults :=
  {| openFails := None; createFails := None;
     writeFails := Some (3, New "no space left on device");
     renameFails := None |}.

(** ** Sample dictionaries *)

Definition sampleCfg : config :=
  {| DeeplAPIEndpoint := "https://api-free.deepl.com/v2/translate";
     DeeplAPIKey := "secret";
     OutputFile := "langs.js";
     TranslationFile := "i18n.yaml";
     LogLevel := "info";
     VersionAndExit := false |}.

(** A stub client: the text, tagged with the destination language. *)
Definition echo (src dst text : string) : result string :=
  Ok (dst +:+ ":" +:+ text).

(** A stub client that fails. *)
Definition refuse (src dst text : string) : result string :=
  Err (New "503 Service Unavailable").

Definition mkMapping (code key : string) (kvs : list (string * any))
  : translationMapping :=
  {| DeeplLanguage := code; LanguageKey := key;
     Translations := Some (list_to_map kvs) |}.

Definition mkFile (ref : translationMapping)
    (langs : list (string * translationMapping)) : translationFile :=
  {| Reference := ref;
     Languages := Some (list_to_map (prod_map id Some <$> langs)) |}.

Definition enGreeting : translationMapping :=
  mkMapping "en" "en"
    [("hello", AString "hi");
     ("steps", ASlice [AString "one"; AString "two"])].

(** German has nothing yet. *)
Definition dictFresh : translationFile :=
  mkFile enGreeting [("de", mkMapping "de" "de" [])].

(** German has [steps] already, one element short of the reference. *)
Definition deShort : translationMapping :=
  mkMapping "de" "de" [("hello", AString "hallo");
                       ("steps", ASlice [AString "eins"])].

Definition dictShort : translationFile := mkFile enGreeting [("de", deShort)].

(** German has [hello] as an explicit null, and a stale key. *)
Definition deNull : translationMapping :=
  mkMapping "de" "de" [("hello", ANil); ("old", AString "alt")].

Definition dictNull : translationFile := mkFile enGreeting [("de", deNull)].

(** The reference holds a number, and a sequence with a number in it. *)
Definition enCount : translationMapping :=
  mkMapping "en" "en" [("count", AOther "int" "3")].

Definition enMixed : translationMapping :=
  mkMapping "en" "en" [("steps", ASlice [AString "one"; AOther "int" "2"])].

Definition deEmpty : translationMapping := mkMapping "de" "de" [].

(** An entry without a target-language code. *)
Definition xxEmpty : translationMapping := mkMapping "" "xx" [].

Definition dictCount : translationFile := mkFile enCount [("de", deEmpty)].
Definition dictCountNoCode : translationFile := mkFile enCount [("xx", xxEmpty)].
Definition dictMixed : translationFile := mkFile enMixed [("de", deEmpty)].

Definition decodeFresh (content : string) : result translationFile :=
  Ok dictFresh.

Definition marshalEmpty (t : translation) : result string := Ok "{}".

(** A marshaller that returns one object, whose value holds an
    apostrophe: the text between the braces is ["greeting":"it's"]. *)
Definition dq : string := String (Ascii.ascii_of_nat 34) EmptyString.

Definition jsonIts : string :=
  "{" +:+ dq +:+ "greeting" +:+ dq +:+ ":" +:+ dq +:+ "it's" +:+ dq +:+ "}".

Definition marshalIts (t : translation) : result string := Ok jsonIts.


(** ** What a run may change, and what it may send *)

(** One slot of the language map before and after a run: a slot that is not
    there stays so, a nil pointer stays nil, and an entry keeps what
    [entryKept] says; an entry without a target-language code is the same
    entry. *)
Definition entryStep (e e' : option (option translationMapping)) : Prop :=
  match e, e' with
  | None, None => True
  | Some None, Some None => True
  | Some (Some m), Some (Some m') =>
      entryKept m m' ∧ (DeeplLanguage m = "" → m' = m)
  | _, _ => False
  end.

Definition dictStep (tf tf' : translationFile) : Prop :=
  Reference tf' = Reference tf ∧
  (Languages tf' = None ↔ Languages tf = None) ∧
  ∀ lang, entryStep (default ∅ (Languages tf) !! lang)
                    (default ∅ (Languages tf') !! lang).

(** [text] is the text of the reference value [v], or one of its elements. *)
Definition refText (v : any) (text : string) : Prop :=
  v = AString text ∨ ∃ l, v = ASlice l ∧ AString text ∈ l.

(** The call [c] is one the dictionary [tf] asks for: from the language of
    the reference, to the target-language code of an entry that has one,
    for a text the reference holds under a key missing from that entry. *)
Definition callFor (tf : translationFile) (c : call) : Prop :=
  c.1.1 = DeeplLanguage (Reference tf) ∧
  c.1.2 ≠ "" ∧
  ∃ lang m key,
    langPtr tf lang = Some m ∧
    DeeplLanguage m = c.1.2 ∧
    isNil (index (Translations m) key) = true ∧
    refText (index (Translations (Reference tf)) key) c.2.

(** The client answered the call [c] with a text. *)
Definition succeeded (fetch : string → string → string → result string)
    (c : call) : Prop :=
  ∃ t, fetch c.1.1 c.1.2 c.2 = Ok t.

(** The calls [cs] of a run that ended in [r]: every call was answered,
    but for the last one when the run returns the error of the client. *)
Definition stopsAtFailure (fetch : string → string → string → result string)
    (r : completion (option error)) (cs : list call) : Prop :=
  match r with
  | Return (Some e) =>
      (∃ v, Cause e = unexpectedType v ∧ Forall (succeeded fetch) cs) ∨
      (∃ cs0 c err,
         cs = cs0 ++ [c] ∧ Forall (succeeded fetch) cs0 ∧
         fetch c.1.1 c.1.2 c.2 = Err err ∧ Cause e = Cause err)
  | _ => Forall (succeeded fetch) cs
  end.

(** The texts sync has to send for one cell: none when the entry is a nil
    pointer or has no target-language code, none when the key is there;
    else the text of the reference, or its texts in order. *)
Definition cellTexts (tf : translationFile) (lang key : string) : list string :=
  match langPtr tf lang with
  | None => []
  | Some m =>
      if decide (DeeplLanguage m = "") then []
      else if isNil (index (Translations m) key) then
        match index (Translations (Reference tf)) key with
        | AString s => [s]
        | ASlice l => default [] (sliceTexts l)
        | _ => []
        end
      else []
  end.

(** The calls for the cells of a dictionary, language by language and,
    within a language, key by key. *)
Definition expectedCalls (tf : translationFile) (langs keys : list string)
  : list call :=
  langs ≫= λ lang,
    keys ≫= λ key,
      (λ s, (DeeplLanguage (Reference tf),
             from_option DeeplLanguage "" (langPtr tf lang), s))
      <$> cellTexts tf lang key.

(** ** More sample dictionaries *)

(** German is there, as a nil pointer. *)
Definition dictNilEntry : translationFile :=
  {| Reference := enGreeting;
     Languages := Some (list_to_map [("de", None)]) |}.

(** The file has no [translations] at all. *)
Definition dictNoLangs : translationFile :=
  {| Reference := enGreeting; Languages := None |}.

Definition decodeNoLangs (content : string) : result translationFile :=
  Ok dictNoLangs.

(** German has a target-language code, [xx] has none. *)
Definition dictTwo : translationFile :=
  mkFile enGreeting [("de", deEmpty); ("xx", xxEmpty)].

(** A configuration without an API key. *)
Definition cfgNoKey : config :=
  {| DeeplAPIEndpoint := "https://api-free.deepl.com/v2/translate";
     DeeplAPIKey := "";
     OutputFile := "langs.js";
     TranslationFile := "i18n.yaml";
     LogLevel := "info";
     VersionAndExit := false |}.

(** [NoDup] of a list that is written out. *)
Ltac nodup_by_computation :=
  apply (bool_decide_unpack _); vm_compute; exact I.

(** * Properties of the sync engine *)

(** ** Strings *)

Lemma string_app_assoc (s1 s2 s3 : string) :
  (s1 +:+ s2) +:+ s3 = s1 +:+ (s2 +:+ s3).
Proof.
  induction s1 as [|c s1 IH]; [done|].
  change (String c ((s1 +:+ s2) +:+ s3) = String c (s1 +:+ s2 +:+ s3)).
  by f_equal.
Qed.

Lemma string_app_length (s1 s2 : string) :
  String.length (s1 +:+ s2) = String.length s1 + String.length s2.
Proof.
  induction s1 as [|c s1 IH]; [done|].
  change (S (String.length (s1 +:+ s2)) =
          S (String.length s1 + String.length s2)).
  by f_equal.
Qed.

(** A path and the path of its temporary file are two paths. *)
Lemma tmp_path_ne (path : string) : path +:+ ".tmp" ≠ path.
Proof.
  intros H. apply (f_equal String.length) in H.
  rewrite string_app_length in H. simpl in H. lia.
Qed.

(** ** Lists and ranges *)

Lemma forallb_elem_of {A : Type} (f : A → bool) (l : list A) :
  forallb f l = true ↔ ∀ x, x ∈ l → f x = true.
Proof.
  induction l as [|a l IH]; simpl.
  - split; [intros _ x Hx; inversion Hx | done].
  - rewrite andb_true_iff, IH. split.
    + intros [Ha Hl] x [->|Hx]%elem_of_cons; auto.
    + intros H. split; [apply H; left | intros x Hx; apply H; by right].
Qed.

Lemma forallb_Permutation {A : Type} (f : A → bool) (l l' : list A) :
  l ≡ₚ l' → forallb f l = forallb f l'.
Proof.
  intros Hp. destruct (forallb f l') eqn:E'.
  - apply forallb_elem_of. intros x Hx.
    rewrite forallb_elem_of in E'. apply E'. by rewrite <- Hp.
  - destruct (forallb f l) eqn:E; [|done]. rewrite <- E'. symmetry.
    apply forallb_elem_of. intros x Hx.
    rewrite forallb_elem_of in E. apply E. by rewrite Hp.
Qed.

Lemma forallb_ext_elem_of {A : Type} (f g : A → bool) (l : list A) :
  (∀ x, x ∈ l → f x = g x) → forallb f l = forallb g l.
Proof.
  induction l as [|a l IH]; intros H; simpl; [done|].
  rewrite H, IH; [done| |left]. intros x Hx. apply H. by right.
Qed.

(** A fold whose steps commute does not see the order of the list. *)
Lemma foldl_commute_Permutation {A B : Type} (f : B → A → B) (l l' : list A) :
  (∀ b x y, f (f b x) y = f (f b y) x) →
  l ≡ₚ l' → ∀ b, foldl f b l = foldl f b l'.
Proof.
  intros Hf Hp. induction Hp as [|x l l' _ IH|x y l|l l' l'' _ IH1 _ IH2];
    intros b; simpl.
  - done.
  - apply IH.
  - by rewrite Hf.
  - by rewrite IH1.
Qed.

Lemma foldl_ext_elem_of {A B : Type} (f g : B → A → B) (l : list A) :
  (∀ b x, x ∈ l → f b x = g b x) → ∀ b, foldl f b l = foldl g b l.
Proof.
  induction l as [|a l IH]; intros H b; simpl; [done|].
  rewrite H by left. apply IH. intros b' x Hx. apply H. by right.
Qed.

Lemma bind_ext_Permutation {A B : Type} (f g : A → list B) (l l' : list A) :
  (∀ x, f x ≡ₚ g x) → l ≡ₚ l' → l ≫= f ≡ₚ l' ≫= g.
Proof.
  intros Hfg Hp. rewrite <- Hp. clear l' Hp.
  induction l as [|a l IH]; [done|]. rewrite !bind_cons. by rewrite Hfg, IH.
Qed.

(** Two orders [range] can yield for one map are permutations. *)
Lemma rangeOrder_Permutation {A : Type} (m : option (gmap string A)) l l' :
  rangeOrder m l → rangeOrder m l' → l ≡ₚ l'.
Proof.
  intros [Hnd Hl] [Hnd' Hl']. apply NoDup_Permutation; [done..|].
  intros k. by rewrite Hl, Hl'.
Qed.

(** ** Pointers into the language map *)

Lemma langPtr_Some tf lang m :
  langPtr tf lang = Some m →
  ∃ ls, Languages tf = Some ls ∧ ls !! lang = Some (Some m).
Proof.
  unfold langPtr. destruct (Languages tf) as [ls|]; [|done].
  destruct (ls !! lang) as [[m0|]|] eqn:E; simpl; intros [= ->]; eauto.
Qed.

Lemma Reference_updateLang f lang tf :
  Reference (updateLang f lang tf) = Reference tf.
Proof. done. Qed.

Lemma langPtr_updateLang_eq f lang tf m :
  langPtr tf lang = Some m → langPtr (updateLang f lang tf) lang = Some (f m).
Proof.
  intros (ls & Hls & Hl)%langPtr_Some. unfold langPtr, updateLang; simpl.
  rewrite Hls; simpl. by rewrite lookup_alter_eq, Hl.
Qed.

Lemma langPtr_updateLang_ne f lang lang' tf :
  lang ≠ lang' → langPtr (updateLang f lang tf) lang' = langPtr tf lang'.
Proof.
  intros Hne. unfold langPtr, updateLang; simpl.
  destruct (Languages tf) as [ls|]; simpl; [|done].
  by rewrite lookup_alter_ne.
Qed.

Lemma updateLang_ext f g lang tf m :
  langPtr tf lang = Some m → f m = g m → updateLang f lang tf = updateLang g lang tf.
Proof.
  intros (ls & Hls & Hl)%langPtr_Some Hfg. unfold updateLang. rewrite Hls; simpl.
  do 2 f_equal. apply map_eq; intros i. rewrite !lookup_alter.
  case_decide; [|done]. rewrite Hl; simpl. by rewrite Hfg.
Qed.

Lemma updateLang_id f lang tf m :
  langPtr tf lang = Some m → f m = m → updateLang f lang tf = tf.
Proof.
  intros (ls & Hls & Hl)%langPtr_Some Hf. unfold updateLang. rewrite Hls; simpl.
  destruct tf as [r l]; simpl in *; subst l. do 2 f_equal.
  apply alter_id. intros x. rewrite Hl. intros [= <-]; simpl. by rewrite Hf.
Qed.

Lemma updateLang_compose f g lang tf :
  updateLang g lang (updateLang f lang tf) = updateLang (g ∘ f) lang tf.
Proof.
  unfold updateLang; simpl. f_equal.
  destruct (Languages tf) as [ls|]; simpl; [|done]. f_equal.
  apply map_eq; intros i. destruct (decide (lang = i)) as [->|Hi].
  - rewrite !lookup_alter_eq. by destruct (ls !! i) as [[?|]|].
  - by rewrite !lookup_alter_ne by done.
Qed.

Lemma updateLang_commute f g lang lang' tf :
  lang ≠ lang' →
  updateLang g lang' (updateLang f lang tf) = updateLang f lang (updateLang g lang' tf).
Proof.
  intros Hne. unfold updateLang; simpl. f_equal.
  destruct (Languages tf) as [ls|]; simpl; [|done]. f_equal.
  apply map_eq; intros i.
  destruct (decide (lang = i)) as [->|Hi], (decide (lang' = i)) as [->|Hi'];
    try congruence.
  - rewrite (lookup_alter_ne _ _ lang') by done.
    rewrite !lookup_alter_eq. by rewrite lookup_alter_ne.
  - rewrite lookup_alter_eq, (lookup_alter_ne _ _ lang) by done.
    rewrite (lookup_alter_ne _ _ lang) by done. by rewrite lookup_alter_eq.
  - by rewrite !lookup_alter_ne.
Qed.

Lemma setKey_makeIfNil key v m : setKey key v (makeIfNil m) = setKey key v m.
Proof. done. Qed.

Lemma index_setKey key v m k :
  index (Translations (setKey key v m)) k =
  if decide (key = k) then v else index (Translations m) k.
Proof.
  unfold index; simpl. rewrite lookup_insert. case_decide; [done|].
  by destruct (Translations m).
Qed.

Lemma index_makeIfNil m k :
  index (Translations (makeIfNil m)) k = index (Translations m) k.
Proof. unfold index; simpl. by destruct (Translations m). Qed.

(** ** One cell: [autoTranslateKeyForLang] *)

Section SyncFacts.

Variable cfg : config.
Variable fetch : string → string → string → result string.

Lemma DeeplLanguage_fillKey ref m key :
  DeeplLanguage (fillKey fetch ref m key) = DeeplLanguage m.
Proof.
  unfold fillKey. destruct (isNil _); [|done]. by destruct (filled _ _ _ _).
Qed.

Lemma LanguageKey_fillKey ref m key :
  LanguageKey (fillKey fetch ref m key) = LanguageKey m.
Proof.
  unfold fillKey. destruct (isNil _); [|done]. by destruct (filled _ _ _ _).
Qed.

Lemma index_fillKey_ne ref m key k :
  key ≠ k →
  index (Translations (fillKey fetch ref m key)) k = index (Translations m) k.
Proof.
  intros Hne. unfold fillKey. destruct (isNil _); [|done].
  destruct (filled _ _ _ _); [|done]. by rewrite index_setKey, decide_False.
Qed.

Lemma filled_not_nil src dst v w : filled fetch src dst v = Some w → isNil w = false.
Proof.
  destruct v; simpl; try done.
  - destruct (fetch _ _ _); [|done]. by intros [= <-].
  - destruct (translateSlice _ _ _ _ _) as [[[?|?]|?] ?]; try done.
    by intros [= <-].
Qed.

(** A value that is there is kept, whatever the key being filled. *)
Lemma index_fillKey_present ref m key k :
  isNil (index (Translations m) k) = false →
  index (Translations (fillKey fetch ref m key)) k = index (Translations m) k.
Proof.
  intros Hk. destruct (decide (key = k)) as [->|Hne];
    [|by apply index_fillKey_ne].
  unfold fillKey. by rewrite Hk.
Qed.

Lemma cellOk_fillKey_ne ref m key k :
  key ≠ k → cellOk fetch ref (fillKey fetch ref m key) k = cellOk fetch ref m k.
Proof.
  intros Hne. unfold cellOk.
  by rewrite index_fillKey_ne, DeeplLanguage_fillKey.
Qed.

Lemma cellCalls_fillKey_ne ref m key k :
  key ≠ k →
  cellCalls fetch ref (fillKey fetch ref m key) k = cellCalls fetch ref m k.
Proof.
  intros Hne. unfold cellCalls.
  by rewrite index_fillKey_ne, DeeplLanguage_fillKey.
Qed.

(** [autoTranslateKeyForLang] on an entry that is there: it returns nil
    exactly when the cell is fine, and then it has filled the cell. *)
Lemma autoTranslateKeyForLang_cell tf lang key m :
  langPtr tf lang = Some m →
  if cellOk fetch (Reference tf) m key then
    autoTranslateKeyForLang fetch tf lang key =
      (Return None,
       updateLang (λ m, fillKey fetch (Reference tf) m key) lang tf,
       cellCalls fetch (Reference tf) m key)
  else (autoTranslateKeyForLang fetch tf lang key).1.1 ≠ Return None.
Proof.
  intros Hm. unfold autoTranslateKeyForLang, cellOk, cellCalls. rewrite Hm.
  destruct (isNil (index (Translations m) key)) eqn:Hnil.
  2:{ f_equal. f_equal. symmetry. apply (updateLang_id _ _ _ m); [done|].
      unfold fillKey. by rewrite Hnil. }
  assert (Hfill : ∀ v,
    filled fetch (DeeplLanguage (Reference tf)) (DeeplLanguage m)
      (index (Translations (Reference tf)) key) = Some v →
    updateLang (setKey key v) lang (updateLang makeIfNil lang tf) =
    updateLang (λ m, fillKey fetch (Reference tf) m key) lang tf).
  { intros v Hv. rewrite updateLang_compose.
    apply (updateLang_ext _ _ _ _ m); [done|]. simpl.
    unfold fillKey. by rewrite Hnil, Hv. }
  destruct (index (Translations (Reference tf)) key) as [|s|l|l|ty r];
    simpl in *; try done.
  - destruct (fetch _ _ s) as [t|e]; simpl; [|done].
    by rewrite (Hfill (AString t)).
  - destruct (translateSlice _ _ _ _ _) as [[[ts|e]|p] cs]; simpl; try done.
    by rewrite (Hfill (AStrings ts)).
Qed.

(** ** One language: the loop over the keys *)

Lemma forallb_cellOk_fillKey ref m key keys :
  key ∉ keys →
  forallb (cellOk fetch ref (fillKey fetch ref m key)) keys =
  forallb (cellOk fetch ref m) keys.
Proof.
  induction keys as [|k keys IH]; [done|]. intros Hnotin; simpl.
  rewrite cellOk_fillKey_ne, IH; [done| |]; set_solver.
Qed.

Lemma bind_cellCalls_fillKey ref m key keys :
  key ∉ keys →
  keys ≫= cellCalls fetch ref (fillKey fetch ref m key) =
  keys ≫= cellCalls fetch ref m.
Proof.
  induction keys as [|k keys IH]; [done|]. intros Hnotin.
  rewrite !bind_cons, cellCalls_fillKey_ne, IH; [done| |]; set_solver.
Qed.

Lemma translateKeys_cells lang keys : ∀ tf m,
  langPtr tf lang = Some m →
  NoDup keys →
  if forallb (cellOk fetch (Reference tf) m) keys then
    translateKeys fetch tf lang keys =
      (Return None,
       updateLang (λ m, foldl (fillKey fetch (Reference tf)) m keys) lang tf,
       keys ≫= cellCalls fetch (Reference tf) m)
  else (translateKeys fetch tf lang keys).1.1 ≠ Return None.
Proof.
  induction keys as [|key keys IH]; intros tf m Hm Hnd; simpl.
  { do 2 f_equal. symmetry. by apply (updateLang_id _ _ _ m). }
  apply NoDup_cons in Hnd as [Hnotin Hnd].
  pose proof (autoTranslateKeyForLang_cell tf lang key m Hm) as Hcell.
  destruct (cellOk fetch (Reference tf) m key) eqn:Hok; simpl.
  2:{ destruct (autoTranslateKeyForLang _ _ _ _) as [[[[e|]|p] tf'] cs];
        simpl in *; done. }
  rewrite Hcell.
  pose proof (IH (updateLang (λ m, fillKey fetch (Reference tf) m key) lang tf)
                (fillKey fetch (Reference tf) m key)
                (langPtr_updateLang_eq _ _ _ _ Hm) Hnd) as IH'.
  rewrite Reference_updateLang, forallb_cellOk_fillKey in IH' by done.
  destruct (forallb _ keys).
  - by rewrite IH', updateLang_compose, bind_cellCalls_fillKey.
  - by destruct (translateKeys _ _ _ _) as [[r tf'] cs'].
Qed.

(** ** All languages: the outer loop *)

Lemma fillLang_skip keys tf lang m :
  langPtr tf lang = Some m → DeeplLanguage m = "" →
  fillLang fetch keys tf lang = tf.
Proof.
  intros Hm Hcode. apply (updateLang_id _ _ _ m); [done|].
  unfold fillEntry. by rewrite decide_True.
Qed.

Lemma fillLang_fill keys tf lang m :
  langPtr tf lang = Some m → DeeplLanguage m ≠ "" →
  fillLang fetch keys tf lang =
  updateLang (λ m, foldl (fillKey fetch (Reference tf)) m keys) lang tf.
Proof.
  intros Hm Hcode. apply (updateLang_ext _ _ _ _ m); [done|].
  unfold fillEntry. by rewrite decide_False.
Qed.

Lemma langOk_fillLang_ne keys tf lang l :
  lang ≠ l → langOk fetch (fillLang fetch keys tf lang) keys l = langOk fetch tf keys l.
Proof.
  intros Hne. unfold langOk, fillLang.
  by rewrite langPtr_updateLang_ne, Reference_updateLang.
Qed.

Lemma langCalls_fillLang_ne keys tf lang l :
  lang ≠ l →
  langCalls fetch (fillLang fetch keys tf lang) keys l = langCalls fetch tf keys l.
Proof.
  intros Hne. unfold langCalls, fillLang.
  by rewrite langPtr_updateLang_ne, Reference_updateLang.
Qed.

Lemma forallb_langOk_fillLang keys tf lang langs :
  lang ∉ langs →
  forallb (langOk fetch (fillLang fetch keys tf lang) keys) langs =
  forallb (langOk fetch tf keys) langs.
Proof.
  induction langs as [|l langs IH]; [done|]. intros Hnotin; simpl.
  rewrite langOk_fillLang_ne, IH; [done| |]; set_solver.
Qed.

Lemma bind_langCalls_fillLang keys tf lang langs :
  lang ∉ langs →
  langs ≫= langCalls fetch (fillLang fetch keys tf lang) keys =
  langs ≫= langCalls fetch tf keys.
Proof.
  induction langs as [|l langs IH]; [done|]. intros Hnotin.
  rewrite !bind_cons, langCalls_fillLang_ne, IH; [done| |]; set_solver.
Qed.

Lemma translateLangs_cells keys langs : ∀ tf,
  NoDup keys → NoDup langs →
  if forallb (langOk fetch tf keys) langs then
    translateLangs fetch tf langs keys =
      (Return None, foldl (fillLang fetch keys) tf langs,
       langs ≫= langCalls fetch tf keys)
  else (translateLangs fetch tf langs keys).1.1 ≠ Return None.
Proof.
  induction langs as [|lang langs IH]; intros tf Hk Hnd; [done|].
  apply NoDup_cons in Hnd as [Hnotin Hnd].
  cbn [translateLangs forallb foldl]. rewrite bind_cons.
  unfold langOk at 1, langCalls at 1.
  destruct (langPtr tf lang) as [m|] eqn:Hm; [|done].
  destruct (decide (DeeplLanguage m = "")) as [Hcode|Hcode].
  { rewrite (fillLang_skip keys tf lang m) by done. by apply IH. }
  pose proof (translateKeys_cells lang keys tf m Hm Hk) as Hkeys.
  destruct (forallb (cellOk fetch (Reference tf) m) keys).
  2:{ destruct (translateKeys _ _ _ _) as [[[[e|]|p] tf'] cs]; simpl in *; done. }
  rewrite Hkeys, <- (fillLang_fill keys tf lang m) by done.
  pose proof (IH (fillLang fetch keys tf lang) Hk Hnd) as IH'.
  rewrite forallb_langOk_fillLang in IH' by done. simpl.
  destruct (forallb _ langs).
  - by rewrite IH', bind_langCalls_fillLang.
  - by destruct (translateLangs _ _ _ _) as [[r tf'] cs'].
Qed.

(** [autoTranslate] with the API key set: it returns nil exactly when
    every language entry is fine, and then it has filled every cell. *)
Lemma autoTranslate_cells langs keys tf :
  DeeplAPIKey cfg ≠ "" → NoDup langs → NoDup keys →
  if forallb (langOk fetch tf keys) langs then
    autoTranslate cfg fetch langs keys tf =
      (Return None, foldl (fillLang fetch keys) tf langs,
       langs ≫= langCalls fetch tf keys)
  else (autoTranslate cfg fetch langs keys tf).1.1 ≠ Return None.
Proof.
  intros Hkey Hl Hk. unfold autoTranslate. rewrite decide_False by done.
  by apply translateLangs_cells.
Qed.

Lemma autoTranslate_success langs keys tf tf' cs :
  DeeplAPIKey cfg ≠ "" → NoDup langs → NoDup keys →
  autoTranslate cfg fetch langs keys tf = (Return None, tf', cs) →
  forallb (langOk fetch tf keys) langs = true ∧
  tf' = foldl (fillLang fetch keys) tf langs ∧
  cs = langs ≫= langCalls fetch tf keys.
Proof.
  intros Hkey Hl Hk Hrun.
  pose proof (autoTranslate_cells langs keys tf Hkey Hl Hk) as H.
  destruct (forallb _ langs).
  - rewrite Hrun in H. by injection H as <- <-.
  - by rewrite Hrun in H.
Qed.

(** ** The dictionary a successful run leaves *)

Lemma Reference_foldl_fillLang keys langs : ∀ tf,
  Reference (foldl (fillLang fetch keys) tf langs) = Reference tf.
Proof. induction langs as [|l langs IH]; intros tf; simpl; [done|]. by rewrite IH. Qed.

Lemma langPtr_foldl_fillLang keys langs : ∀ tf lang m,
  NoDup langs → langPtr tf lang = Some m →
  langPtr (foldl (fillLang fetch keys) tf langs) lang =
  Some (if decide (lang ∈ langs) then fillEntry fetch (Reference tf) keys m else m).
Proof.
  induction langs as [|l langs IH]; intros tf lang m Hnd Hm; cbn [foldl].
  { by rewrite decide_False by set_solver. }
  apply NoDup_cons in Hnd as [Hnotin Hnd].
  destruct (decide (l = lang)) as [->|Hne].
  - rewrite (IH _ lang (fillEntry fetch (Reference tf) keys m)); [|done|].
    + by rewrite decide_False, decide_True by set_solver.
    + unfold fillLang. by apply langPtr_updateLang_eq.
  - rewrite (IH _ lang m); [|done|].
    + unfold fillLang at 1. rewrite Reference_updateLang.
      destruct (decide (lang ∈ langs)).
      * by rewrite decide_True by (by right).
      * rewrite decide_False; [done|]. by intros [?|?]%elem_of_cons.
    + unfold fillLang. by rewrite langPtr_updateLang_ne.
Qed.

Lemma langPtr_foldl_fillLang_None keys langs : ∀ tf lang,
  langPtr tf lang = None →
  langPtr (foldl (fillLang fetch keys) tf langs) lang = None.
Proof.
  induction langs as [|l langs IH]; intros tf lang Hm; simpl; [done|].
  apply IH. unfold fillLang, langPtr, updateLang in *; simpl.
  destruct (Languages tf) as [ls|]; simpl in *; [|done].
  rewrite lookup_alter. case_decide; [subst|done].
  by destruct (ls !! lang) as [[?|]|].
Qed.

(** A value that is there stays through the loop over the keys. *)
Lemma index_foldl_fillKey_present ref keys : ∀ m k,
  isNil (index (Translations m) k) = false →
  index (Translations (foldl (fillKey fetch ref) m keys)) k =
  index (Translations m) k.
Proof.
  induction keys as [|key keys IH]; intros m k Hk; simpl; [done|].
  rewrite IH; rewrite index_fillKey_present; done.
Qed.

Lemma DeeplLanguage_foldl_fillKey ref keys : ∀ m,
  DeeplLanguage (foldl (fillKey fetch ref) m keys) = DeeplLanguage m.
Proof.
  induction keys as [|key keys IH]; intros m; simpl; [done|].
  by rewrite IH, DeeplLanguage_fillKey.
Qed.

Lemma LanguageKey_foldl_fillKey ref keys : ∀ m,
  LanguageKey (foldl (fillKey fetch ref) m keys) = LanguageKey m.
Proof.
  induction keys as [|key keys IH]; intros m; simpl; [done|].
  by rewrite IH, LanguageKey_fillKey.
Qed.

(** A missing key of a fine cell holds its translation after the loop. *)
Lemma index_foldl_fillKey_filled ref keys : ∀ m k,
  k ∈ keys →
  isNil (index (Translations m) k) = true →
  cellOk fetch ref m k = true →
  ∃ v, filled fetch (DeeplLanguage ref) (DeeplLanguage m)
         (index (Translations ref) k) = Some v ∧
       index (Translations (foldl (fillKey fetch ref) m keys)) k = v.
Proof.
  induction keys as [|key keys IH]; intros m k Hin Hnil Hok; [set_solver|].
  simpl. destruct (decide (key = k)) as [->|Hne].
  - unfold cellOk in Hok. rewrite Hnil in Hok.
    apply bool_decide_eq_true in Hok as [v Hv]. exists v. split; [done|].
    assert (Hfill : fillKey fetch ref m k = setKey k v m).
    { unfold fillKey. by rewrite Hnil, Hv. }
    rewrite Hfill, index_foldl_fillKey_present;
      rewrite index_setKey, decide_True by done; [done|].
    by eapply filled_not_nil.
  - destruct (IH (fillKey fetch ref m key) k) as (v & Hv & Hidx).
    + by apply elem_of_cons in Hin as [?|?].
    + by rewrite index_fillKey_ne.
    + by rewrite cellOk_fillKey_ne.
    + exists v. by rewrite DeeplLanguage_fillKey in Hv.
Qed.

(** After the loop over the keys of a fine entry no key is missing. *)
Lemma index_foldl_fillKey_not_nil ref keys m k :
  k ∈ keys →
  cellOk fetch ref m k = true →
  isNil (index (Translations (foldl (fillKey fetch ref) m keys)) k) = false.
Proof.
  intros Hin Hok. destruct (isNil (index (Translations m) k)) eqn:Hnil.
  - destruct (index_foldl_fillKey_filled ref keys m k Hin Hnil Hok)
      as (v & Hv & ->). by eapply filled_not_nil.
  - by rewrite index_foldl_fillKey_present.
Qed.

(** ** The sequence branch *)

Lemma sliceTexts_fmap ss : sliceTexts (AString <$> ss) = Some ss.
Proof.
  induction ss as [|s ss IH]; [done|].
  rewrite fmap_cons. cbn [sliceTexts]. by rewrite IH.
Qed.

Lemma sliceTexts_Some l ss : sliceTexts l = Some ss → l = AString <$> ss.
Proof.
  revert ss. induction l as [|v l IH]; intros ss; simpl.
  - by intros [= <-].
  - destruct v; try done. destruct (sliceTexts l) as [ss'|]; simpl; [|done].
    intros [= <-]. by rewrite (IH ss').
Qed.

(** When the loop returns a slice, every element was a text, each was
    translated in turn, and the slice holds the translations in order. *)
Lemma translateSlice_Ok src dst l : ∀ acc ts cs,
  translateSlice fetch src dst l acc = (Return (Ok ts), cs) →
  ∃ ss ts', l = AString <$> ss ∧
            Forall2 (λ s t, fetch src dst s = Ok t) ss ts' ∧
            ts = acc ++ ts' ∧
            cs = (λ s, (src, dst, s)) <$> ss.
Proof.
  induction l as [|v l IH]; intros acc ts cs; simpl.
  - intros [= <- <-]. exists [], []. by rewrite app_nil_r.
  - destruct v as [|s|?|?|? ?]; try done.
    destruct (fetch src dst s) as [t|e] eqn:Hs; [|done].
    destruct (translateSlice _ _ _ _ _) as [r cs'] eqn:Hrest.
    intros [= -> <-].
    destruct (IH _ _ _ Hrest) as (ss & ts' & -> & Hall & -> & ->).
    exists (s :: ss), (t :: ts'). split_and!; [done| |by rewrite <- app_assoc|done].
    by constructor.
Qed.

(** On a sequence of texts the loop never reaches the failure of the
    assertion [str.(string)]. *)
Lemma translateSlice_texts src dst ss : ∀ acc,
  ∃ r, (translateSlice fetch src dst (AString <$> ss) acc).1 = Return r.
Proof.
  induction ss as [|s ss IH]; intros acc; simpl; [by eexists|].
  destruct (fetch src dst s) as [t|e]; [|by eexists].
  destruct (IH (acc ++ [t])) as [r Hr].
  destruct (translateSlice _ _ _ _ _) as [r' cs]. by exists r.
Qed.

(** The loop panics at the first element that is not a text, once the
    texts before it are translated. *)
Lemma translateSlice_panic src dst ss ts v rest : ∀ acc,
  texts (ASlice [v]) = None →
  Forall2 (λ s t, fetch src dst s = Ok t) ss ts →
  translateSlice fetch src dst ((AString <$> ss) ++ v :: rest) acc =
    (Panic (notAString v), (λ s, (src, dst, s)) <$> ss).
Proof.
  intros acc Hv Hall. revert acc.
  induction Hall as [|s t ss ts Hs _ IH]; intros acc; simpl.
  - by destruct v.
  - by rewrite Hs, IH.
Qed.

(** The loop ends in a slice, in an error of the client, or in the panic
    of the assertion. *)
Lemma translateSlice_Err src dst l : ∀ acc e cs,
  translateSlice fetch src dst l acc = (Return (Err e), cs) →
  ∃ s, fetch src dst s = Err e.
Proof.
  induction l as [|v l IH]; intros acc e cs; simpl; [done|].
  destruct v as [|s|?|?|? ?]; try done.
  destruct (fetch src dst s) as [t|e'] eqn:Hs.
  - destruct (translateSlice _ _ _ _ _) as [r cs'] eqn:Hrest.
    intros [= -> <-]. by eapply IH.
  - intros [= <- <-]. by exists s.
Qed.

Lemma filled_Some src dst v w :
  filled fetch src dst v = Some w →
  (∃ s t, v = AString s ∧ fetch src dst s = Ok t ∧ w = AString t) ∨
  (∃ ss ts, v = ASlice (AString <$> ss) ∧
            Forall2 (λ s t, fetch src dst s = Ok t) ss ts ∧
            w = AStrings ts).
Proof.
  destruct v as [|s|l|?|? ?]; simpl; try done.
  - destruct (fetch src dst s) as [t|e] eqn:Hs; [|done].
    intros [= <-]. left. by exists s, t.
  - destruct (translateSlice _ _ _ _ _) as [[[ts|e]|p] cs] eqn:Hl; try done.
    intros [= <-]. right.
    apply translateSlice_Ok in Hl as (ss & ts' & -> & Hall & -> & _).
    by exists ss, ts'.
Qed.

(** ** What is there is kept *)

Lemma entryKept_refl m : entryKept m m.
Proof. by split_and!. Qed.

Lemma entryKept_trans m1 m2 m3 :
  entryKept m1 m2 → entryKept m2 m3 → entryKept m1 m3.
Proof.
  intros (Hd & Hl & H12) (Hd' & Hl' & H23).
  split_and!; [congruence..|]. intros k v Hk.
  destruct (H12 k v Hk) as [[v2 Hv2] Hkeep]. split.
  - by destruct (H23 k v2 Hv2).
  - intros Hv. apply (H23 k v); auto.
Qed.

Lemma dictKept_refl tf : dictKept tf tf.
Proof.
  split_and!; try done. intros lang m Hm. exists m. auto using entryKept_refl.
Qed.

Lemma dictKept_trans tf1 tf2 tf3 :
  dictKept tf1 tf2 → dictKept tf2 tf3 → dictKept tf1 tf3.
Proof.
  intros (Hr & Hd & H12) (Hr' & Hd' & H23). split_and!.
  - congruence.
  - intros lang. by rewrite Hd', Hd.
  - intros lang m1 Hm1. destruct (H12 _ _ Hm1) as (m2 & Hm2 & Hk12).
    destruct (H23 _ _ Hm2) as (m3 & Hm3 & Hk23).
    exists m3. eauto using entryKept_trans.
Qed.

Lemma entryKept_makeIfNil m : entryKept m (makeIfNil m).
Proof. by split_and!. Qed.

Lemma index_lookup t k v :
  default ∅ t !! k = Some v → index t k = v.
Proof. unfold index. destruct t as [g|]; simpl; [by intros ->|done]. Qed.

Lemma lookup_index t k :
  isNil (index t k) = false → default ∅ t !! k = Some (index t k).
Proof.
  unfold index. destruct t as [g|]; simpl; [|done].
  by destruct (g !! k).
Qed.

Lemma entryKept_setKey m key w :
  isNil (index (Translations m) key) = true → entryKept m (setKey key w m).
Proof.
  intros Hnil. split_and!; try done. intros k v Hk; simpl.
  destruct (decide (key = k)) as [->|Hne].
  - rewrite lookup_insert_eq. split; [done|].
    apply index_lookup in Hk. congruence.
  - rewrite lookup_insert_ne by done. by rewrite Hk.
Qed.

Lemma dictKept_updateLang f lang tf :
  (∀ m, langPtr tf lang = Some m → entryKept m (f m)) →
  dictKept tf (updateLang f lang tf).
Proof.
  intros Hf. split_and!; [done| |].
  - intros l. unfold updateLang; simpl.
    destruct (Languages tf) as [ls|]; simpl; [|done].
    apply lookup_alter_is_Some.
  - intros l m Hm. destruct (decide (lang = l)) as [->|Hne].
    + exists (f m). split; [by apply langPtr_updateLang_eq|by apply Hf].
    + exists m. rewrite langPtr_updateLang_ne by done.
      auto using entryKept_refl.
Qed.

(** Whatever way [autoTranslateKeyForLang] ends, it keeps what was there. *)
Lemma autoTranslateKeyForLang_kept tf lang key :
  dictKept tf (autoTranslateKeyForLang fetch tf lang key).1.2.
Proof.
  unfold autoTranslateKeyForLang.
  destruct (langPtr tf lang) as [m|] eqn:Hm; [|apply dictKept_refl].
  destruct (isNil (index (Translations m) key)) eqn:Hnil;
    [|apply dictKept_refl].
  assert (H1 : dictKept tf (updateLang makeIfNil lang tf)).
  { apply dictKept_updateLang. auto using entryKept_makeIfNil. }
  assert (H2 : ∀ w, dictKept tf
     (updateLang (setKey key w) lang (updateLang makeIfNil lang tf))).
  { intros w. rewrite updateLang_compose. apply dictKept_updateLang.
    intros m' Hm'. simpl. rewrite setKey_makeIfNil.
    apply entryKept_setKey. congruence. }
  destruct (index (Translations (Reference tf)) key) as [|s|l|?|? ?];
    simpl; try done.
  - destruct (fetch _ _ s); simpl; apply H2.
  - destruct (translateSlice _ _ _ _ _) as [[[ts|e]|p] cs]; simpl;
      auto using H2.
Qed.

Lemma translateKeys_kept lang keys : ∀ tf,
  dictKept tf (translateKeys fetch tf lang keys).1.2.
Proof.
  induction keys as [|key keys IH]; intros tf; simpl; [apply dictKept_refl|].
  pose proof (autoTranslateKeyForLang_kept tf lang key) as Hstep.
  destruct (autoTranslateKeyForLang _ _ _ _) as [[[[e|]|p] tf1] cs];
    simpl in *; try done.
  pose proof (IH tf1) as Hrest.
  destruct (translateKeys _ _ _ _) as [[r tf2] cs2]; simpl in *.
  by eapply dictKept_trans.
Qed.

Lemma translateLangs_kept keys langs : ∀ tf,
  dictKept tf (translateLangs fetch tf langs keys).1.2.
Proof.
  induction langs as [|lang langs IH]; intros tf; simpl; [apply dictKept_refl|].
  destruct (langPtr tf lang) as [m|]; [|apply dictKept_refl].
  case_decide; [apply IH|].
  pose proof (translateKeys_kept lang keys tf) as Hstep.
  destruct (translateKeys _ _ _ _) as [[[[e|]|p] tf1] cs]; simpl in *; try done.
  pose proof (IH tf1) as Hrest.
  destruct (translateLangs _ _ _ _) as [[r tf2] cs2]; simpl in *.
  by eapply dictKept_trans.
Qed.

Lemma autoTranslate_kept langs keys tf :
  dictKept tf (autoTranslate cfg fetch langs keys tf).1.2.
Proof.
  unfold autoTranslate. case_decide; [apply dictKept_refl|].
  apply translateLangs_kept.
Qed.

(** ** A run with nothing to do *)

Lemma autoTranslateKeyForLang_present tf lang key m :
  langPtr tf lang = Some m → isNil (index (Translations m) key) = false →
  autoTranslateKeyForLang fetch tf lang key = (Return None, tf, []).
Proof. intros Hm Hk. unfold autoTranslateKeyForLang. by rewrite Hm, Hk. Qed.

Lemma translateKeys_noop tf lang keys m :
  langPtr tf lang = Some m →
  (∀ k, k ∈ keys → isNil (index (Translations m) k) = false) →
  translateKeys fetch tf lang keys = (Return None, tf, []).
Proof.
  intros Hm. induction keys as [|key keys IH]; intros Hall; simpl; [done|].
  rewrite (autoTranslateKeyForLang_present tf lang key m Hm) by (apply Hall; left).
  rewrite IH; [done|]. intros k Hk. apply Hall. by right.
Qed.

Lemma translateLangs_noop tf langs keys :
  (∀ lang, lang ∈ langs →
     ∃ m, langPtr tf lang = Some m ∧
          (DeeplLanguage m = "" ∨
           ∀ k, k ∈ keys → isNil (index (Translations m) k) = false)) →
  translateLangs fetch tf langs keys = (Return None, tf, []).
Proof.
  induction langs as [|lang langs IH]; intros Hall; simpl; [done|].
  destruct (Hall lang) as (m & Hm & Hcase); [left|]. rewrite Hm.
  assert (Hrest : translateLangs fetch tf langs keys = (Return None, tf, [])).
  { apply IH. intros l Hl. apply Hall. by right. }
  case_decide; [done|]. destruct Hcase as [?|Hpresent]; [done|].
  by rewrite (translateKeys_noop tf lang keys m), Hrest.
Qed.

(** ** The order of the ranges does not matter *)

Lemma fillKey_commute ref m a b :
  fillKey fetch ref (fillKey fetch ref m a) b =
  fillKey fetch ref (fillKey fetch ref m b) a.
Proof.
  destruct (decide (a = b)) as [->|Hne]; [done|].
  unfold fillKey at 1 3.
  rewrite !index_fillKey_ne, !DeeplLanguage_fillKey by done.
  unfold fillKey.
  destruct (isNil (index (Translations m) a)) eqn:Ha,
    (isNil (index (Translations m) b)) eqn:Hb; try done.
  destruct (filled _ _ _ (index _ a)) as [va|],
    (filled _ _ _ (index _ b)) as [vb|]; try done.
  unfold setKey; simpl. do 2 f_equal. by apply insert_insert_ne.
Qed.

Lemma foldl_fillKey_Permutation ref keys keys' m :
  keys ≡ₚ keys' →
  foldl (fillKey fetch ref) m keys = foldl (fillKey fetch ref) m keys'.
Proof.
  intros Hp. apply foldl_commute_Permutation; [|done].
  intros. apply fillKey_commute.
Qed.

Lemma fillEntry_Permutation ref keys keys' m :
  keys ≡ₚ keys' → fillEntry fetch ref keys m = fillEntry fetch ref keys' m.
Proof.
  intros Hp. unfold fillEntry. case_decide; [done|].
  by apply foldl_fillKey_Permutation.
Qed.

Lemma updateLang_ext_all f g lang tf :
  (∀ m, f m = g m) → updateLang f lang tf = updateLang g lang tf.
Proof.
  intros Hfg. unfold updateLang. f_equal.
  destruct (Languages tf) as [ls|]; simpl; [|done]. f_equal.
  apply map_eq; intros i. rewrite !lookup_alter. case_decide; [|done].
  destruct (ls !! lang) as [[m|]|]; simpl; by rewrite ?Hfg.
Qed.

Lemma fillLang_Permutation keys keys' tf lang :
  keys ≡ₚ keys' → fillLang fetch keys tf lang = fillLang fetch keys' tf lang.
Proof.
  intros Hp. apply updateLang_ext_all. intros m. by apply fillEntry_Permutation.
Qed.

Lemma fillLang_commute keys tf a b :
  fillLang fetch keys (fillLang fetch keys tf a) b =
  fillLang fetch keys (fillLang fetch keys tf b) a.
Proof.
  destruct (decide (a = b)) as [->|Hne]; [done|].
  unfold fillLang. rewrite !Reference_updateLang. by apply updateLang_commute.
Qed.

Lemma foldl_fillLang_Permutation keys keys' langs langs' tf :
  keys ≡ₚ keys' → langs ≡ₚ langs' →
  foldl (fillLang fetch keys) tf langs = foldl (fillLang fetch keys') tf langs'.
Proof.
  intros Hk Hl.
  rewrite (foldl_commute_Permutation _ langs langs');
    [|intros; apply fillLang_commute|done].
  apply foldl_ext_elem_of. intros. by apply fillLang_Permutation.
Qed.

Lemma langOk_Permutation keys keys' tf lang :
  keys ≡ₚ keys' → langOk fetch tf keys lang = langOk fetch tf keys' lang.
Proof.
  intros Hp. unfold langOk. destruct (langPtr tf lang); [|done].
  case_decide; [done|]. by apply forallb_Permutation.
Qed.

Lemma langCalls_Permutation keys keys' tf lang :
  keys ≡ₚ keys' → langCalls fetch tf keys lang ≡ₚ langCalls fetch tf keys' lang.
Proof.
  intros Hp. unfold langCalls. destruct (langPtr tf lang); [|done].
  case_decide; [done|]. by rewrite Hp.
Qed.

(** Whatever order the two ranges take, a run that returns nil leaves the
    same dictionary, and issues the same calls up to their order. *)
Lemma autoTranslate_order langs keys langs' keys' tf tf' cs :
  rangeOrder (Languages tf) langs → rangeOrder (Languages tf) langs' →
  rangeOrder (Translations (Reference tf)) keys →
  rangeOrder (Translations (Reference tf)) keys' →
  autoTranslate cfg fetch langs keys tf = (Return None, tf', cs) →
  ∃ cs', autoTranslate cfg fetch langs' keys' tf = (Return None, tf', cs') ∧
         cs ≡ₚ cs'.
Proof.
  intros Hl Hl' Hk Hk' Hrun.
  pose proof (rangeOrder_Permutation _ _ _ Hl Hl') as Hpl.
  pose proof (rangeOrder_Permutation _ _ _ Hk Hk') as Hpk.
  destruct (decide (DeeplAPIKey cfg = "")) as [Hkey|Hkey].
  { unfold autoTranslate in *. rewrite decide_True in * by done.
    injection Hrun as <- <-. by exists []. }
  apply autoTranslate_success in Hrun as (Hok & -> & ->);
    [|done|apply Hl|apply Hk].
  pose proof (autoTranslate_cells langs' keys' tf Hkey (proj1 Hl') (proj1 Hk'))
    as Hrun'.
  rewrite <- (forallb_Permutation _ _ _ Hpl) in Hrun'.
  rewrite (forallb_ext_elem_of _ (langOk fetch tf keys)) in Hrun'
    by (intros; symmetry; by apply langOk_Permutation).
  rewrite Hok in Hrun'. eexists. split.
  - rewrite Hrun'. do 2 f_equal. symmetry.
    by apply foldl_fillLang_Permutation.
  - apply bind_ext_Permutation; [|done].
    intros. by apply langCalls_Permutation.
Qed.

End SyncFacts.

(** * The sync engine against the specification *)

Lemma rangeOrder_elem_of {A : Type} (m : option (gmap string A)) order k x :
  rangeOrder m order → default ∅ m !! k = Some x → k ∈ order.
Proof. intros [_ H] Hk. apply H. by rewrite Hk. Qed.

Lemma rangeOrder_langPtr tf langs lang m :
  rangeOrder (Languages tf) langs → langPtr tf lang = Some m → lang ∈ langs.
Proof.
  intros Hl (ls & Hls & Hlang)%langPtr_Some.
  apply (rangeOrder_elem_of _ _ _ (Some m) Hl). by rewrite Hls.
Qed.

(** An order stays one when the map is read from another map with the same
    keys, and when it is permuted. *)
Lemma rangeOrder_Permutation_r {A B : Type} (m : option (gmap string A))
    (m' : option (gmap string B)) l l' :
  rangeOrder m l →
  dom (default ∅ m') = dom (default ∅ m) →
  l ≡ₚ l' →
  rangeOrder m' l'.
Proof.
  intros [Hnd Hl] Hdom Hp. split; [by rewrite <- Hp|].
  intros k. rewrite <- Hp, Hl, <- !elem_of_dom. by rewrite Hdom.
Qed.

(** The keys of a map written out as a list are an order [range] can take. *)
Lemma rangeOrder_list_to_map {A : Type} (kvs : list (string * A)) :
  NoDup kvs.*1 → rangeOrder (Some (list_to_map kvs)) kvs.*1.
Proof.
  intros Hnd. split; [done|]. intros k; simpl.
  rewrite <- elem_of_dom, dom_list_to_map_L. by rewrite elem_of_list_to_set.
Qed.

(** C1 (as amended).  After a sync run that returns nil with the API key
    set, in every language entry that has a target-language code, every
    reference key that was missing from the entry before the run (absent, or
    null) is in the entry with the variant of the reference value: a text
    holds the client's translation of the reference text, and a sequence
    holds, in order and in the same number, the client's translations of the
    reference's elements. *)
Theorem autoTranslate_fills_missing cfg fetch langs keys tf tf' cs lang m key v :
  DeeplAPIKey cfg ≠ "" →
  rangeOrder (Languages tf) langs →
  rangeOrder (Translations (Reference tf)) keys →
  autoTranslate cfg fetch langs keys tf = (Return None, tf', cs) →
  langPtr tf lang = Some m →
  DeeplLanguage m ≠ "" →
  default ∅ (Translations (Reference tf)) !! key = Some v →
  isNil (index (Translations m) key) = true →
  ∃ m' w,
    langPtr tf' lang = Some m' ∧
    default ∅ (Translations m') !! key = Some w ∧
    variantOf w = variantOf v ∧
    ((∃ s t, v = AString s ∧ w = AString t ∧
             fetch (DeeplLanguage (Reference tf)) (DeeplLanguage m) s = Ok t) ∨
     (∃ ss ts, v = ASlice (AString <$> ss) ∧ w = AStrings ts ∧
               Forall2 (λ s t, fetch (DeeplLanguage (Reference tf))
                                 (DeeplLanguage m) s = Ok t) ss ts)).
Proof.
  intros Hkey Hl Hk Hrun Hm Hcode Hv Hnil.
  apply autoTranslate_success in Hrun as (Hok & -> & ->);
    [|done|apply Hl|apply Hk].
  pose proof (rangeOrder_langPtr _ _ _ _ Hl Hm) as Hlang.
  pose proof (rangeOrder_elem_of _ _ _ _ Hk Hv) as Hin.
  rewrite forallb_elem_of in Hok. specialize (Hok lang Hlang).
  unfold langOk in Hok. rewrite Hm in Hok.
  destruct (decide (DeeplLanguage m = "")) as [|_]; [done|].
  rewrite forallb_elem_of in Hok. specialize (Hok key Hin).
  destruct (index_foldl_fillKey_filled fetch (Reference tf) keys m key
              Hin Hnil Hok) as (w & Hw & Hidx).
  rewrite (index_lookup _ _ _ Hv) in Hw.
  exists (foldl (fillKey fetch (Reference tf)) m keys), w. split_and!.
  - rewrite (langPtr_foldl_fillLang fetch keys langs tf lang m) by (done || apply Hl).
    rewrite decide_True by done. unfold fillEntry. by rewrite decide_False.
  - rewrite <- Hidx. apply lookup_index. rewrite Hidx.
    by eapply filled_not_nil.
  - apply filled_Some in Hw
      as [(s & t & -> & _ & ->)|(ss & ts & -> & _ & ->)]; done.
  - apply filled_Some in Hw
      as [(s & t & -> & Ht & ->)|(ss & ts & -> & Hts & ->)].
    + left. by exists s, t.
    + right. by exists ss, ts.
Qed.

Lemma autoTranslate_fills_missing_witness :
  ∃ m' w,
    langPtr (autoTranslate sampleCfg echo ["de"] ["hello"; "steps"] dictFresh).1.2
      "de" = Some m' ∧
    default ∅ (Translations m') !! "steps" = Some w ∧
    variantOf w = variantOf (ASlice [AString "one"; AString "two"]) ∧
    ((∃ s t, ASlice [AString "one"; AString "two"] = AString s ∧
             w = AString t ∧ echo "en" "de" s = Ok t) ∨
     (∃ ss ts, ASlice [AString "one"; AString "two"] = ASlice (AString <$> ss) ∧
               w = AStrings ts ∧
               Forall2 (λ s t, echo "en" "de" s = Ok t) ss ts)).
Proof.
  apply (autoTranslate_fills_missing sampleCfg echo ["de"] ["hello"; "steps"]
           dictFresh _
           (autoTranslate sampleCfg echo ["de"] ["hello"; "steps"] dictFresh).2
           "de" deEmpty "steps" (ASlice [AString "one"; AString "two"])).
  - discriminate.
  - apply (rangeOrder_list_to_map [("de", Some deEmpty)]).
    nodup_by_computation.
  - apply (rangeOrder_list_to_map
             [("hello", AString "hi");
              ("steps", ASlice [AString "one"; AString "two"])]).
    nodup_by_computation.
  - vm_compute. reflexivity.
  - vm_compute. reflexivity.
  - discriminate.
  - vm_compute. reflexivity.
  - vm_compute. reflexivity.
Defined.

(** C1 as the specification words it does not hold: a sequence that is in
    the entry already is left as it is, whatever its length. *)
Lemma syncFillsEveryKey_fails :
  ¬ syncFillsEveryKey sampleCfg echo ["de"] ["hello"; "steps"] dictShort.
Proof.
  intros H.
  destruct (H dictShort [] "de" deShort "steps"
              (ASlice [AString "one"; AString "two"]))
    as (m' & w & Hm' & Hw & _ & Hseq).
  - vm_compute. reflexivity.
  - vm_compute. reflexivity.
  - discriminate.
  - vm_compute. reflexivity.
  - vm_compute in Hm'. injection Hm' as <-.
    vm_compute in Hw. injection Hw as <-.
    destruct (Hseq ["one"; "two"] eq_refl) as (ts & Hts & Hall).
    injection Hts as <-.
    inversion Hall as [|? ? ? ? _ Hrest]; subst. inversion Hrest.
Qed.

(** C5 (as amended).  Sync only adds: whatever way a run ends, every key of
    a language entry is still a key of the entry, and a key whose value was
    not null still holds that value. *)
Theorem autoTranslate_keeps_values cfg fetch langs keys tf lang m key v :
  langPtr tf lang = Some m →
  default ∅ (Translations m) !! key = Some v →
  ∃ m',
    langPtr (autoTranslate cfg fetch langs keys tf).1.2 lang = Some m' ∧
    is_Some (default ∅ (Translations m') !! key) ∧
    (isNil v = false → default ∅ (Translations m') !! key = Some v).
Proof.
  intros Hm Hv.
  destruct (autoTranslate_kept cfg fetch langs keys tf) as (_ & _ & Hkept).
  destruct (Hkept lang m Hm) as (m' & Hm' & _ & _ & Hkeys).
  exists m'. split; [done|]. by apply Hkeys.
Qed.

Lemma autoTranslate_keeps_values_witness :
  ∃ m',
    langPtr (autoTranslate sampleCfg echo ["de"] ["hello"; "steps"] dictNull).1.2
      "de" = Some m' ∧
    is_Some (default ∅ (Translations m') !! "old") ∧
    (isNil (AString "alt") = false →
     default ∅ (Translations m') !! "old" = Some (AString "alt")).
Proof.
  apply (autoTranslate_keeps_values sampleCfg echo ["de"] ["hello"; "steps"]
           dictNull "de" deNull "old" (AString "alt")).
  - vm_compute. reflexivity.
  - vm_compute. reflexivity.
Defined.

(** C5 as the specification words it does not hold: a key that is in the
    entry with a null value counts as missing and is given a translation. *)
Lemma syncKeepsEveryKey_fails :
  ¬ syncKeepsEveryKey sampleCfg echo ["de"] ["hello"; "steps"] dictNull.
Proof.
  intros H. destruct (H "de" deNull "hello" ANil) as (m' & Hm' & Hv).
  - vm_compute. reflexivity.
  - vm_compute. reflexivity.
  - vm_compute in Hm'. injection Hm' as <-. vm_compute in Hv. discriminate.
Qed.

(** C6.  A second run on the dictionary a first run left, with the same
    reference and the same client, issues no call and leaves the dictionary
    as it is, whatever orders the ranges of the two runs take. *)
Theorem autoTranslate_idempotent cfg fetch langs keys langs' keys' tf tf' cs :
  rangeOrder (Languages tf) langs →
  rangeOrder (Translations (Reference tf)) keys →
  autoTranslate cfg fetch langs keys tf = (Return None, tf', cs) →
  rangeOrder (Languages tf') langs' →
  rangeOrder (Translations (Reference tf')) keys' →
  autoTranslate cfg fetch langs' keys' tf' = (Return None, tf', []).
Proof.
  intros Hl Hk Hrun Hl' Hk'.
  destruct (autoTranslate_kept cfg fetch langs keys tf) as (Href & Hdom & _).
  rewrite Hrun in Href, Hdom; simpl in Href, Hdom.
  unfold autoTranslate in *.
  destruct (decide (DeeplAPIKey cfg = "")) as [Hkey|Hkey]; [done|].
  apply translateLangs_noop. intros lang Hlang.
  pose proof (translateLangs_cells fetch keys langs tf (proj1 Hk) (proj1 Hl))
    as Hcells.
  destruct (forallb (langOk fetch tf keys) langs) eqn:Hok;
    [|by rewrite Hrun in Hcells].
  rewrite Hrun in Hcells. injection Hcells as -> _.
  assert (Hin : lang ∈ langs).
  { apply Hl, Hdom. by apply Hl'. }
  rewrite forallb_elem_of in Hok. specialize (Hok lang Hin).
  unfold langOk in Hok. destruct (langPtr tf lang) as [m|] eqn:Hm; [|done].
  exists (fillEntry fetch (Reference tf) keys m). split.
  - rewrite (langPtr_foldl_fillLang fetch keys langs tf lang m) by (done || apply Hl).
    by rewrite decide_True.
  - unfold fillEntry.
    destruct (decide (DeeplLanguage m = "")) as [Hcode|Hcode]; [by left|].
    right. intros k Hk0. apply index_foldl_fillKey_not_nil.
    + apply Hk. rewrite <- Href. by apply Hk'.
    + rewrite forallb_elem_of in Hok. apply Hok.
      apply Hk. rewrite <- Href. by apply Hk'.
Qed.

Lemma autoTranslate_idempotent_witness :
  autoTranslate sampleCfg echo ["de"] ["steps"; "hello"]
    (autoTranslate sampleCfg echo ["de"] ["hello"; "steps"] dictFresh).1.2 =
  (Return None,
   (autoTranslate sampleCfg echo ["de"] ["hello"; "steps"] dictFresh).1.2, []).
Proof.
  apply (autoTranslate_idempotent sampleCfg echo ["de"] ["hello"; "steps"]
           ["de"] ["steps"; "hello"] dictFresh _
           (autoTranslate sampleCfg echo ["de"] ["hello"; "steps"] dictFresh).2).
  - apply (rangeOrder_list_to_map [("de", Some deEmpty)]). nodup_by_computation.
  - apply (rangeOrder_list_to_map
             [("hello", AString "hi");
              ("steps", ASlice [AString "one"; AString "two"])]).
    nodup_by_computation.
  - vm_compute. reflexivity.
  - eapply rangeOrder_Permutation_r;
      [apply (rangeOrder_list_to_map [("de", Some deEmpty)]);
       nodup_by_computation | | done].
    vm_compute. reflexivity.
  - eapply rangeOrder_Permutation_r;
      [apply (rangeOrder_list_to_map
                [("hello", AString "hi");
                 ("steps", ASlice [AString "one"; AString "two"])]);
       nodup_by_computation | | apply Permutation_swap].
    vm_compute. reflexivity.
Defined.

(** ** The dispatch on the reference value *)

Lemma autoTranslateKeyForLang_slice fetch tf lang key m l :
  langPtr tf lang = Some m →
  isNil (index (Translations m) key) = true →
  index (Translations (Reference tf)) key = ASlice l →
  (autoTranslateKeyForLang fetch tf lang key).1.1 =
  match (translateSlice fetch (DeeplLanguage (Reference tf)) (DeeplLanguage m)
           l []).1 with
  | Return (Ok _) => Return None
  | Return (Err err) => Return (Some (Wrap err (translatingMsg lang key)))
  | Panic p => Panic p
  end.
Proof.
  intros Hm Hnil Hl. unfold autoTranslateKeyForLang. rewrite Hm, Hnil, Hl.
  by destruct (translateSlice _ _ _ _ _) as [[[ts|e]|p] cs].
Qed.

(** C10.  The test for a key that is there is a test of its value against
    nil, and the loop over a sequence asserts that each element is a text.
    So (1) a key that is in the entry with a null value is given a fresh
    translation; (2) on a sequence whose elements are all texts the
    assertion never fails; (3) a sequence with an element that is not a text
    panics at that element, once the texts before it are translated; and
    (4) a sequence never produces the unsupported-type error. *)
Theorem nil_test_and_text_assertion fetch tf lang key m :
  langPtr tf lang = Some m →
  isNil (index (Translations m) key) = true →
  let src := DeeplLanguage (Reference tf) in
  let dst := DeeplLanguage m in
  let run := autoTranslateKeyForLang fetch tf lang key in
  (∀ w, default ∅ (Translations m) !! key = Some ANil →
        filled fetch src dst (index (Translations (Reference tf)) key) = Some w →
        ∃ m', run.1.1 = Return None ∧
              langPtr run.1.2 lang = Some m' ∧
              default ∅ (Translations m') !! key = Some w ∧
              w ≠ ANil) ∧
  (∀ ss, index (Translations (Reference tf)) key = ASlice (AString <$> ss) →
         ∃ r, run.1.1 = Return r) ∧
  (∀ ss ts v rest,
     index (Translations (Reference tf)) key =
       ASlice ((AString <$> ss) ++ v :: rest) →
     texts (ASlice [v]) = None →
     Forall2 (λ s t, fetch src dst s = Ok t) ss ts →
     run.1.1 = Panic (notAString v)) ∧
  (∀ l v, index (Translations (Reference tf)) key = ASlice l →
          run.1.1 ≠ Return (Some (unexpectedType v))).
Proof.
  intros Hm Hnil src dst run. split_and!.
  - intros w _ Hw.
    pose proof (autoTranslateKeyForLang_cell fetch tf lang key m Hm) as Hcell.
    unfold cellOk in Hcell. fold src dst in Hcell.
    rewrite Hnil, Hw, bool_decide_eq_true_2 in Hcell by done.
    exists (setKey key w m). subst run. rewrite Hcell; simpl. split_and!.
    + done.
    + rewrite (langPtr_updateLang_eq _ _ _ m) by done.
      unfold fillKey. fold src dst. by rewrite Hnil, Hw.
    + apply lookup_insert_eq.
    + intros ->. by apply filled_not_nil in Hw.
  - intros ss Hss. subst run.
    rewrite (autoTranslateKeyForLang_slice fetch tf lang key m _ Hm Hnil Hss).
    destruct (translateSlice_texts fetch src dst ss []) as [r Hr].
    fold src dst. rewrite Hr. destruct r; by eexists.
  - intros ss ts v rest Hl Hv Hall. subst run.
    rewrite (autoTranslateKeyForLang_slice fetch tf lang key m _ Hm Hnil Hl).
    fold src dst. by rewrite (translateSlice_panic fetch src dst ss ts).
  - intros l v Hl. subst run.
    rewrite (autoTranslateKeyForLang_slice fetch tf lang key m _ Hm Hnil Hl).
    by destruct (translateSlice _ _ _ _ _).1 as [[?|?]|?].
Qed.

Lemma nil_test_and_text_assertion_witness :
  (∀ w, default ∅ (Translations deNull) !! "hello" = Some ANil →
        filled echo "en" "de" (index (Translations (Reference dictNull)) "hello")
          = Some w →
        ∃ m', (autoTranslateKeyForLang echo dictNull "de" "hello").1.1
                = Return None ∧
              langPtr (autoTranslateKeyForLang echo dictNull "de" "hello").1.2
                "de" = Some m' ∧
              default ∅ (Translations m') !! "hello" = Some w ∧
              w ≠ ANil) ∧
  (∀ ss, index (Translations (Reference dictNull)) "hello"
           = ASlice (AString <$> ss) →
         ∃ r, (autoTranslateKeyForLang echo dictNull "de" "hello").1.1
                = Return r) ∧
  (∀ ss ts v rest,
     index (Translations (Reference dictNull)) "hello" =
       ASlice ((AString <$> ss) ++ v :: rest) →
     texts (ASlice [v]) = None →
     Forall2 (λ s t, echo "en" "de" s = Ok t) ss ts →
     (autoTranslateKeyForLang echo dictNull "de" "hello").1.1
       = Panic (notAString v)) ∧
  (∀ l v, index (Translations (Reference dictNull)) "hello" = ASlice l →
          (autoTranslateKeyForLang echo dictNull "de" "hello").1.1
            ≠ Return (Some (unexpectedType v))).
Proof.
  apply (nil_test_and_text_assertion echo dictNull "de" "hello" deNull).
  - vm_compute. reflexivity.
  - vm_compute. reflexivity.
Defined.

(** The three behaviours of C10 on the sample dictionaries: the null value
    of [hello] is overwritten, the two texts of [steps] are translated in
    order, and the number in [steps] panics after the text before it was
    sent. *)
Example null_value_is_overwritten :
  index (Translations deNull) "hello" = ANil ∧
  ∃ m', langPtr (autoTranslateKeyForLang echo dictNull "de" "hello").1.2 "de"
          = Some m' ∧
        index (Translations m') "hello" = AString "de:hi".
Proof. split; [done|]. eexists. split; vm_compute; reflexivity. Qed.

Example text_sequence_is_translated :
  ∃ m', autoTranslateKeyForLang echo dictFresh "de" "steps" =
          (Return None, (autoTranslateKeyForLang echo dictFresh "de" "steps").1.2,
           [("en", "de", "one"); ("en", "de", "two")]) ∧
        langPtr (autoTranslateKeyForLang echo dictFresh "de" "steps").1.2 "de"
          = Some m' ∧
        index (Translations m') "steps" = AStrings ["de:one"; "de:two"].
Proof. eexists. split_and!; vm_compute; reflexivity. Qed.

Example mixed_sequence_panics :
  (autoTranslate sampleCfg echo ["de"] ["steps"] dictMixed).1.1 =
    Panic "interface conversion: interface {} is int, not string" ∧
  (autoTranslate sampleCfg echo ["de"] ["steps"] dictMixed).2 =
    [("en", "de", "one")].
Proof. split; vm_compute; reflexivity. Qed.

(** C4 (as amended).  When the API key is set, the entry has a
    target-language code, the key is missing from the entry, and the
    reference value is neither a text nor a sequence, then translating the
    key returns the unsupported-type error and issues no call; the loop
    over the keys returns it wrapped in a message that names the language
    and the key; the key is still missing from the entry; and sync as a
    whole does not return nil. *)
Theorem unsupported_value_rejected cfg fetch tf lang key m v :
  langPtr tf lang = Some m →
  isNil (index (Translations m) key) = true →
  index (Translations (Reference tf)) key = v →
  (∀ s, v ≠ AString s) →
  (∀ l, v ≠ ASlice l) →
  let tf' := (autoTranslateKeyForLang fetch tf lang key).1.2 in
  autoTranslateKeyForLang fetch tf lang key =
    (Return (Some (unexpectedType v)), tf', []) ∧
  (∀ rest, translateKeys fetch tf lang (key :: rest) =
     (Return (Some (Wrap (unexpectedType v) (translatingMsg lang key))),
      tf', [])) ∧
  Cause (Wrap (unexpectedType v) (translatingMsg lang key)) = unexpectedType v ∧
  Error (Wrap (unexpectedType v) (translatingMsg lang key)) =
    "translating " +:+ lang +:+ ":" +:+ key +:+
    ": unexpected translation type " +:+ typeName v ∧
  (∃ m', langPtr tf' lang = Some m' ∧
         default ∅ (Translations m') !! key = default ∅ (Translations m) !! key) ∧
  (∀ langs keys,
     DeeplAPIKey cfg ≠ "" → DeeplLanguage m ≠ "" →
     NoDup langs → NoDup keys → lang ∈ langs → key ∈ keys →
     (autoTranslate cfg fetch langs keys tf).1.1 ≠ Return None).
Proof.
  intros Hm Hnil Hv Hs Hl tf'.
  assert (Hrun : autoTranslateKeyForLang fetch tf lang key =
            (Return (Some (unexpectedType v)), updateLang makeIfNil lang tf, [])).
  { unfold autoTranslateKeyForLang. rewrite Hm, Hnil, Hv.
    destruct v; try done; [by destruct (Hs s)|by destruct (Hl l)]. }
  subst tf'. rewrite Hrun. simpl. split_and!.
  - done.
  - intros rest. by rewrite Hrun.
  - done.
  - unfold translatingMsg, unexpectedType. simpl.
    by rewrite !string_app_assoc.
  - exists (makeIfNil m). split; [by apply langPtr_updateLang_eq|done].
  - intros langs keys Hkey Hcode Hnl Hnk Hlang Hin.
    pose proof (autoTranslate_cells cfg fetch langs keys tf Hkey Hnl Hnk) as H.
    destruct (forallb (langOk fetch tf keys) langs) eqn:Hok; [|done].
    rewrite forallb_elem_of in Hok. specialize (Hok lang Hlang).
    unfold langOk in Hok. rewrite Hm in Hok.
    destruct (decide (DeeplLanguage m = "")); [done|].
    rewrite forallb_elem_of in Hok. specialize (Hok key Hin).
    unfold cellOk in Hok. rewrite Hnil, Hv in Hok.
    apply bool_decide_eq_true in Hok as [w Hw].
    destruct v; try done; [by destruct (Hs s)|by destruct (Hl l)].
Qed.

Lemma unsupported_value_rejected_witness :
  let tf' := (autoTranslateKeyForLang echo dictCount "de" "count").1.2 in
  autoTranslateKeyForLang echo dictCount "de" "count" =
    (Return (Some (unexpectedType (AOther "int" "3"))), tf', []) ∧
  (∀ rest, translateKeys echo dictCount "de" ("count" :: rest) =
     (Return (Some (Wrap (unexpectedType (AOther "int" "3"))
                      (translatingMsg "de" "count"))),
      tf', [])) ∧
  Cause (Wrap (unexpectedType (AOther "int" "3")) (translatingMsg "de" "count"))
    = unexpectedType (AOther "int" "3") ∧
  Error (Wrap (unexpectedType (AOther "int" "3")) (translatingMsg "de" "count")) =
    "translating " +:+ "de" +:+ ":" +:+ "count" +:+
    ": unexpected translation type " +:+ typeName (AOther "int" "3") ∧
  (∃ m', langPtr tf' "de" = Some m' ∧
         default ∅ (Translations m') !! "count" =
         default ∅ (Translations deEmpty) !! "count") ∧
  (∀ langs keys,
     DeeplAPIKey sampleCfg ≠ "" → DeeplLanguage deEmpty ≠ "" →
     NoDup langs → NoDup keys → "de" ∈ langs → "count" ∈ keys →
     (autoTranslate sampleCfg echo langs keys dictCount).1.1 ≠ Return None).
Proof.
  apply (unsupported_value_rejected sampleCfg echo dictCount "de" "count"
           deEmpty (AOther "int" "3")).
  - vm_compute. reflexivity.
  - vm_compute. reflexivity.
  - vm_compute. reflexivity.
  - discriminate.
  - discriminate.
Defined.

(** C4 as the specification words it does not hold: an entry without a
    target-language code is skipped, and sync returns nil whatever the
    reference holds. *)
Lemma syncRejectsUnsupported_fails :
  ¬ syncRejectsUnsupported sampleCfg echo ["xx"] ["count"] dictCountNoCode.
Proof.
  intros H.
  destruct (H "xx" xxEmpty "count" (AOther "int" "3"))
    as (tf' & cs & m' & Hrun & _).
  - vm_compute. reflexivity.
  - vm_compute. reflexivity.
  - vm_compute. reflexivity.
  - discriminate.
  - reflexivity.
  - vm_compute in Hrun. discriminate.
Qed.

(** * The translation client against the specification *)

(** C2 (as amended).  A call of the client fails when the endpoint cannot be
    parsed, when the transport fails, when the body of the response cannot
    be decoded, and when the decoded body does not hold exactly one
    translation; otherwise it returns the one translated text.  The status
    code of the response plays no part. *)
Theorem fetchTranslation_outcomes cfg parseURL Do decodePayload
    srcLang destLang text :
  let r := fetchTranslation cfg parseURL Do decodePayload srcLang destLang text in
  (∀ err, parseURL (DeeplAPIEndpoint cfg) = Err err →
          r = Err (Wrap err "creating request")) ∧
  (∀ u, parseURL (DeeplAPIEndpoint cfg) = Ok u →
     let req := buildRequest cfg u srcLang destLang text in
     (∀ err, Do req = Err err → r = Err (Wrap err "executing request")) ∧
     (∀ resp err, Do req = Ok resp → decodePayload (Body resp) = Err err →
                  r = Err (Wrap err "decoding DeepL response")) ∧
     (∀ resp ts, Do req = Ok resp → decodePayload (Body resp) = Ok ts →
                 length ts ≠ 1 →
                 r = Err (New ("unexpected number of translations: " +:+
                               pretty (length ts)))) ∧
     (∀ resp t, Do req = Ok resp → decodePayload (Body resp) = Ok [t] →
                r = Ok t)).
Proof.
  intros r. subst r. unfold fetchTranslation. split.
  - by intros err ->.
  - intros u ->. split_and!.
    + by intros err ->.
    + by intros resp err -> ->.
    + intros resp ts -> -> Hlen. by destruct ts as [|t [|t' ts]].
    + by intros resp t -> ->.
Qed.

Lemma fetchTranslation_outcomes_witness :
  fetchTranslation sampleCfg parseAny answer500 oneTranslation "en" "de" "Hello"
  = Ok "Hallo".
Proof.
  destruct (fetchTranslation_outcomes sampleCfg parseAny answer500
              oneTranslation "en" "de" "Hello") as [_ H].
  destruct (H (DeeplAPIEndpoint sampleCfg) eq_refl) as (_ & _ & _ & Hone).
  apply (Hone {| StatusCode := 500; Body := "translations: Hallo" |}).
  - reflexivity.
  - reflexivity.
Defined.

(** C2 as the specification words it does not hold: the status code is
    never looked at, and a 500 response whose body holds one translation
    is a success. *)
Lemma clientChecksResponse_fails :
  ¬ clientChecksResponse sampleCfg parseAny answer500 oneTranslation.
Proof.
  intros H.
  destruct (H (DeeplAPIEndpoint sampleCfg) "en" "de" "Hello" eq_refl)
    as (_ & Hstatus & _).
  destruct (Hstatus {| StatusCode := 500; Body := "translations: Hallo" |})
    as [e He].
  - reflexivity.
  - unfold successStatus; simpl. lia.
  - vm_compute in He. discriminate.
Qed.

(** * The dictionary store and the pipeline against the specification *)

Section StoreFacts.

Variable cfg : config.
Variable yamlEncode : translationFile → string.
Variable yamlDecode : string → result translationFile.

(** A save that fails leaves the dictionary file as it was. *)
Lemma saveTranslationFile_Err io tf d err d' :
  saveTranslationFile cfg yamlEncode io tf d = (Err err, d') →
  d' !! TranslationFile cfg = d !! TranslationFile cfg.
Proof.
  unfold saveTranslationFile.
  pose proof (tmp_path_ne (TranslationFile cfg)) as Hne.
  destruct (createFails io) as [e|]; [by intros [= _ <-]|].
  destruct (writeFails io) as [[n e]|].
  { intros [= _ <-]. by rewrite !lookup_insert_ne. }
  destruct (renameFails io) as [e|]; [|done].
  intros [= _ <-]. by rewrite !lookup_insert_ne.
Qed.

(** A save that succeeds has put the encoding of the dictionary in the
    dictionary file, through the temporary file, which is gone. *)
Lemma saveTranslationFile_Ok io tf d d' :
  saveTranslationFile cfg yamlEncode io tf d = (Ok (), d') →
  d' = <[TranslationFile cfg := yamlEncode tf]>
         (delete (TranslationFile cfg +:+ ".tmp") d).
Proof.
  unfold saveTranslationFile, rename.
  destruct (createFails io) as [e|]; [done|].
  destruct (writeFails io) as [[n e]|]; [done|].
  destruct (renameFails io) as [e|]; [done|].
  rewrite lookup_insert_eq. intros [= <-].
  by rewrite insert_insert_eq, delete_insert_eq.
Qed.

Lemma saveTranslationFile_noFaults tf d :
  saveTranslationFile cfg yamlEncode noFaults tf d =
  (Ok (), <[TranslationFile cfg := yamlEncode tf]>
            (delete (TranslationFile cfg +:+ ".tmp") d)).
Proof.
  destruct (saveTranslationFile cfg yamlEncode noFaults tf d) as [[[]|e] d']
    eqn:Hsave.
  - by rewrite (saveTranslationFile_Ok _ _ _ _ Hsave).
  - unfold saveTranslationFile in Hsave. by simpl in Hsave.
Qed.

End StoreFacts.

(** C3.  When loading fails, or sync does not return nil, the run leaves
    every file as it was, the dictionary file among them; and a save that
    fails, at whichever step, leaves the content of the dictionary file as
    it was: the encoding goes to the temporary file, and only the rename
    puts it under the path of the dictionary. *)
Theorem dictionary_file_untouched cfg fetch yamlEncode yamlDecode jsonMarshal :
  (∀ loadIO saveIO renderIO langs keys d,
     (∀ tf, loadTranslationFile cfg yamlDecode loadIO d = Ok tf →
            (autoTranslate cfg fetch langs keys tf).1.1 ≠ Return None) →
     (main cfg fetch yamlEncode yamlDecode jsonMarshal
        loadIO saveIO renderIO langs keys d).1.2 = d) ∧
  (∀ io tf d err d',
     saveTranslationFile cfg yamlEncode io tf d = (Err err, d') →
     d' !! TranslationFile cfg = d !! TranslationFile cfg) ∧
  (∀ io tf d,
     (is_Some (createFails io) ∨ is_Some (writeFails io)) →
     ∃ err d', saveTranslationFile cfg yamlEncode io tf d = (Err err, d') ∧
               d' !! TranslationFile cfg = d !! TranslationFile cfg).
Proof.
  split_and!.
  - intros loadIO saveIO renderIO langs keys d Hfail. unfold main.
    destruct (VersionAndExit cfg); [done|].
    destruct (loadTranslationFile cfg yamlDecode loadIO d) as [tf|e]; [|done].
    specialize (Hfail tf eq_refl).
    by destruct (autoTranslate cfg fetch langs keys tf) as [[[[e|]|p] tf1] cs].
  - apply saveTranslationFile_Err.
  - intros io tf d Hio.
    destruct (saveTranslationFile cfg yamlEncode io tf d) as [[[]|err] d']
      eqn:Hsave.
    + unfold saveTranslationFile in Hsave.
      destruct (createFails io); [done|].
      destruct (writeFails io) as [[n e]|]; [done|].
      destruct Hio as [[? [=]]|[? [=]]].
    + exists err, d'. split; [done|]. by eapply saveTranslationFile_Err.
Qed.

Lemma dictionary_file_untouched_witness :
  (main sampleCfg refuse encodeFresh decodeFresh marshalEmpty
     noFaults noFaults noFaults ["de"] ["hello"; "steps"] diskOld).1.2 = diskOld ∧
  ∃ err d',
    saveTranslationFile sampleCfg encodeFresh diskFull dictFresh diskOld
      = (Err err, d') ∧
    d' !! "i18n.yaml" = Some "reference: old".
Proof.
  destruct (dictionary_file_untouched sampleCfg refuse encodeFresh decodeFresh
              marshalEmpty) as (Hmain & _ & Hsave).
  split.
  - apply Hmain. intros tf [= <-]. vm_compute. discriminate.
  - apply (Hsave diskFull dictFresh diskOld). right. by eexists.
Defined.



(** C8 (as amended).  Two runs of the pipeline on the same files, with the
    same client and the same outcomes of the file operations, that differ
    in the orders their ranges take: when one run ends well, so does the
    other, it leaves the same files, the dictionary and the generated
    artifact among them, and it has issued the same calls up to their
    order.  The order of the calls is the order of the ranges. *)
Theorem main_order_independent cfg fetch yamlEncode yamlDecode jsonMarshal
    loadIO saveIO renderIO langs keys langs' keys' d tf d1 cs :
  loadTranslationFile cfg yamlDecode loadIO d = Ok tf →
  rangeOrder (Languages tf) langs → rangeOrder (Languages tf) langs' →
  rangeOrder (Translations (Reference tf)) keys →
  rangeOrder (Translations (Reference tf)) keys' →
  main cfg fetch yamlEncode yamlDecode jsonMarshal
    loadIO saveIO renderIO langs keys d = (ExitOk, d1, cs) →
  ∃ cs',
    main cfg fetch yamlEncode yamlDecode jsonMarshal
      loadIO saveIO renderIO langs' keys' d = (ExitOk, d1, cs') ∧
    cs ≡ₚ cs'.
Proof.
  intros Hload Hl Hl' Hk Hk'. unfold main. rewrite Hload.
  destruct (VersionAndExit cfg); [intros [= <- <-]; by exists []|].
  destruct (autoTranslate cfg fetch langs keys tf) as [[[[e|]|p] tf1] cs0]
    eqn:Hrun; try done.
  destruct (autoTranslate_order cfg fetch langs keys langs' keys' tf tf1 cs0
              Hl Hl' Hk Hk' Hrun) as (cs' & -> & Hperm).
  destruct (saveTranslationFile _ _ _ _ _) as [[[]|e] d2]; [|done].
  destruct (renderView tf1) as [tf2|p]; [|done].
  destruct (renderJSFile _ _ _ _ _) as [[[]|e] d3]; [|done].
  intros [= <- <-]. by exists cs'.
Qed.

Lemma main_order_independent_witness :
  ∃ cs',
    main sampleCfg echo encodeFresh decodeFresh marshalEmpty
      noFaults noFaults noFaults ["de"] ["steps"; "hello"] diskOld =
    (ExitOk,
     (main sampleCfg echo encodeFresh decodeFresh marshalEmpty
        noFaults noFaults noFaults ["de"] ["hello"; "steps"] diskOld).1.2,
     cs') ∧
    (main sampleCfg echo encodeFresh decodeFresh marshalEmpty
       noFaults noFaults noFaults ["de"] ["hello"; "steps"] diskOld).2 ≡ₚ cs'.
Proof.
  apply (main_order_independent sampleCfg echo encodeFresh decodeFresh
           marshalEmpty noFaults noFaults noFaults
           ["de"] ["hello"; "steps"] ["de"] ["steps"; "hello"] diskOld
           dictFresh).
  - reflexivity.
  - apply (rangeOrder_list_to_map [("de", Some deEmpty)]). nodup_by_computation.
  - apply (rangeOrder_list_to_map [("de", Some deEmpty)]). nodup_by_computation.
  - apply (rangeOrder_list_to_map
             [("hello", AString "hi");
              ("steps", ASlice [AString "one"; AString "two"])]).
    nodup_by_computation.
  - eapply rangeOrder_Permutation_r;
      [apply (rangeOrder_list_to_map
                [("hello", AString "hi");
                 ("steps", ASlice [AString "one"; AString "two"])]);
       nodup_by_computation | done | apply Permutation_swap].
  - vm_compute. reflexivity.
Defined.

(** C8 as the specification words it does not hold: the calls follow the
    order of the ranges, and two orders of the same keys give two sequences
    of calls. *)
Lemma syncCallsInOneOrder_fails : ¬ syncCallsInOneOrder sampleCfg echo dictFresh.
Proof.
  intros H.
  specialize (H ["de"] ["hello"; "steps"] ["de"] ["steps"; "hello"]).
  assert (Hde : rangeOrder (Languages dictFresh) ["de"]).
  { apply (rangeOrder_list_to_map [("de", Some deEmpty)]). nodup_by_computation. }
  assert (Hkeys : rangeOrder (Translations (Reference dictFresh))
                    ["hello"; "steps"]).
  { apply (rangeOrder_list_to_map
             [("hello", AString "hi");
              ("steps", ASlice [AString "one"; AString "two"])]).
    nodup_by_computation. }
  assert (Hkeys' : rangeOrder (Translations (Reference dictFresh))
                     ["steps"; "hello"]).
  { eapply rangeOrder_Permutation_r; [apply Hkeys|done|apply Permutation_swap]. }
  specialize (H Hde Hde Hkeys Hkeys'). vm_compute in H. discriminate.
Qed.

(** * The renderer against the specification *)


Lemma escape_nil : ReplaceAll "" "'" "\'" = "".
Proof. done. Qed.



Section RenderFacts.

Variable jsonMarshal : translation → result string.


End RenderFacts.


Lemma sortedKeys_elem_of {A : Type} (m : gmap string A) k :
  k ∈ sortedKeys m ↔ is_Some (m !! k).
Proof.
  unfold sortedKeys. rewrite merge_sort_Permutation, list_elem_of_fmap.
  split.
  - intros ([k' x] & -> & Hx%elem_of_map_to_list). by exists x.
  - intros [x Hx]. exists (k, x). by rewrite elem_of_map_to_list.
Qed.




(** The rendering example of the specification: two languages, each with a
    block, and the apostrophe of [it's] behind a backslash. *)
Example render_its :
  ∀ tf2, renderView dictFresh = Return tf2 →
  executeTemplate marshalIts tf2 =
    ("// Auto-Generated, do not edit!" +:+ nl +:+ nl +:+ "export default {" +:+
     nl +:+ "  'de': JSON.parse('{" +:+ dq +:+ "greeting" +:+ dq +:+ ":" +:+ dq +:+
       "it\'s" +:+ dq +:+ "}')," +:+
     nl +:+ "  'en': JSON.parse('{" +:+ dq +:+ "greeting" +:+ dq +:+ ":" +:+ dq +:+
       "it\'s" +:+ dq +:+ "}')," +:+
     nl +:+ "}" +:+ nl, None) ∧
  jsonShaped jsonIts = true ∧
  literalBody (ReplaceAll jsonIts "'" "\'") = true ∧
  literalBody jsonIts = false.
Proof. intros tf2 [= <-]. split_and!; vm_compute; reflexivity. Qed.

(** * Further properties of the sync engine *)

Lemma langPtr_alt tf lang :
  langPtr tf lang = default None (default ∅ (Languages tf) !! lang).
Proof. unfold langPtr. by destruct (Languages tf). Qed.

Lemma entryStep_refl e : entryStep e e.
Proof. destruct e as [[m|]|]; simpl; auto using entryKept_refl. Qed.

Lemma entryStep_trans e1 e2 e3 :
  entryStep e1 e2 → entryStep e2 e3 → entryStep e1 e3.
Proof.
  destruct e1 as [[m1|]|], e2 as [[m2|]|], e3 as [[m3|]|]; simpl; try done.
  intros [H12 Hc12] [H23 Hc23]. split; [by eapply entryKept_trans|].
  intros Hcode. rewrite <- (Hc12 Hcode). apply Hc23.
  by rewrite (Hc12 Hcode).
Qed.

Lemma dictStep_refl tf : dictStep tf tf.
Proof. split_and!; try done. intros lang. apply entryStep_refl. Qed.

Lemma dictStep_trans tf1 tf2 tf3 :
  dictStep tf1 tf2 → dictStep tf2 tf3 → dictStep tf1 tf3.
Proof.
  intros (Hr & Hn & H12) (Hr' & Hn' & H23). split_and!.
  - congruence.
  - by rewrite Hn', Hn.
  - intros lang. by eapply entryStep_trans.
Qed.

(** An entry of the dictionary after a step comes from an entry before. *)
Lemma dictStep_langPtr_back tf tf' lang m' :
  dictStep tf tf' → langPtr tf' lang = Some m' →
  ∃ m, langPtr tf lang = Some m ∧ entryKept m m' ∧
       (DeeplLanguage m = "" → m' = m).
Proof.
  intros (_ & _ & Hstep). specialize (Hstep lang). rewrite !langPtr_alt.
  destruct (default ∅ (Languages tf) !! lang) as [[m|]|],
    (default ∅ (Languages tf') !! lang) as [[m2|]|]; simpl in *; try done.
  intros [= ->]. by exists m.
Qed.

Lemma dictStep_langPtr tf tf' lang m :
  dictStep tf tf' → langPtr tf lang = Some m →
  ∃ m', langPtr tf' lang = Some m' ∧ entryKept m m' ∧
        (DeeplLanguage m = "" → m' = m).
Proof.
  intros (_ & _ & Hstep). specialize (Hstep lang). rewrite !langPtr_alt.
  destruct (default ∅ (Languages tf) !! lang) as [[m1|]|],
    (default ∅ (Languages tf') !! lang) as [[m2|]|]; simpl in *; try done.
  intros [= ->]. by exists m2.
Qed.

(** A write through the pointer of an entry that has a target-language
    code, which keeps what the entry had, is a step. *)
Lemma dictStep_updateLang f lang tf :
  (∀ m, langPtr tf lang = Some m → DeeplLanguage m ≠ "" ∧ entryKept m (f m)) →
  dictStep tf (updateLang f lang tf).
Proof.
  intros Hf. split_and!; [done| |].
  - unfold updateLang; simpl. by destruct (Languages tf).
  - intros l. unfold updateLang; simpl.
    destruct (Languages tf) as [ls|] eqn:Hls; simpl; [|done].
    destruct (decide (lang = l)) as [<-|Hne].
    + rewrite lookup_alter_eq.
      destruct (ls !! lang) as [[m|]|] eqn:Hm; simpl; try done.
      destruct (Hf m) as [Hcode Hkept].
      { unfold langPtr. by rewrite Hls, Hm. }
      done.
    + rewrite lookup_alter_ne by done. apply entryStep_refl.
Qed.

Section SyncSteps.

Variable cfg : config.
Variable fetch : string → string → string → result string.

Lemma autoTranslateKeyForLang_step tf lang key :
  (∀ m, langPtr tf lang = Some m → DeeplLanguage m ≠ "") →
  dictStep tf (autoTranslateKeyForLang fetch tf lang key).1.2.
Proof.
  intros Hcode. unfold autoTranslateKeyForLang.
  destruct (langPtr tf lang) as [m|] eqn:Hm; [|apply dictStep_refl].
  destruct (isNil (index (Translations m) key)) eqn:Hnil;
    [|apply dictStep_refl].
  specialize (Hcode m eq_refl).
  assert (H1 : dictStep tf (updateLang makeIfNil lang tf)).
  { apply dictStep_updateLang. intros m' Hm'.
    rewrite Hm in Hm'. injection Hm' as <-.
    split; [done|apply entryKept_makeIfNil]. }
  assert (H2 : ∀ w, dictStep tf
     (updateLang (setKey key w) lang (updateLang makeIfNil lang tf))).
  { intros w. rewrite updateLang_compose. apply dictStep_updateLang.
    intros m' Hm'. rewrite Hm in Hm'. injection Hm' as <-.
    split; [done|]. simpl. rewrite setKey_makeIfNil.
    by apply entryKept_setKey. }
  destruct (index (Translations (Reference tf)) key) as [|s|l|?|? ?];
    simpl; try done.
  - destruct (fetch _ _ s); simpl; apply H2.
  - destruct (translateSlice _ _ _ _ _) as [[[ts|e]|p] cs]; simpl;
      auto using H2.
Qed.

Lemma translateKeys_step lang keys : ∀ tf,
  (∀ m, langPtr tf lang = Some m → DeeplLanguage m ≠ "") →
  dictStep tf (translateKeys fetch tf lang keys).1.2.
Proof.
  induction keys as [|key keys IH]; intros tf Hcode; simpl;
    [apply dictStep_refl|].
  pose proof (autoTranslateKeyForLang_step tf lang key Hcode) as Hstep.
  destruct (autoTranslateKeyForLang _ _ _ _) as [[[[e|]|p] tf1] cs];
    simpl in *; try done.
  assert (Hcode1 : ∀ m, langPtr tf1 lang = Some m → DeeplLanguage m ≠ "").
  { intros m1 Hm1.
    destruct (dictStep_langPtr_back _ _ _ _ Hstep Hm1) as (m & Hm & Hk & _).
    destruct Hk as (-> & _). by apply Hcode. }
  pose proof (IH tf1 Hcode1) as Hrest.
  destruct (translateKeys _ _ _ _) as [[r tf2] cs2]; simpl in *.
  by eapply dictStep_trans.
Qed.

Lemma translateLangs_step keys langs : ∀ tf,
  dictStep tf (translateLangs fetch tf langs keys).1.2.
Proof.
  induction langs as [|lang langs IH]; intros tf; simpl; [apply dictStep_refl|].
  destruct (langPtr tf lang) as [m|] eqn:Hm; [|apply dictStep_refl].
  case_decide as Hcode; [apply IH|].
  assert (Hstep : dictStep tf (translateKeys fetch tf lang keys).1.2).
  { apply translateKeys_step. intros m' Hm'. rewrite Hm in Hm'.
    by injection Hm' as <-. }
  destruct (translateKeys _ _ _ _) as [[[[e|]|p] tf1] cs]; simpl in *; try done.
  pose proof (IH tf1) as Hrest.
  destruct (translateLangs _ _ _ _) as [[r tf2] cs2]; simpl in *.
  by eapply dictStep_trans.
Qed.

Lemma autoTranslate_step langs keys tf :
  dictStep tf (autoTranslate cfg fetch langs keys tf).1.2.
Proof.
  unfold autoTranslate. case_decide; [apply dictStep_refl|].
  apply translateLangs_step.
Qed.

End SyncSteps.

(** X1.  Whatever way sync ends, it leaves the reference as it was, the
    language map nil or not as it was, with the same language keys and the
    same nil pointers, and every entry with the target-language code and
    the language key it had. *)
Theorem autoTranslate_keeps_shape cfg fetch langs keys tf :
  let tf' := (autoTranslate cfg fetch langs keys tf).1.2 in
  Reference tf' = Reference tf ∧
  (Languages tf' = None ↔ Languages tf = None) ∧
  (∀ lang, default ∅ (Languages tf') !! lang = None ↔
           default ∅ (Languages tf) !! lang = None) ∧
  (∀ lang, default ∅ (Languages tf') !! lang = Some None ↔
           default ∅ (Languages tf) !! lang = Some None) ∧
  (∀ lang m', langPtr tf' lang = Some m' →
     ∃ m, langPtr tf lang = Some m ∧
          DeeplLanguage m' = DeeplLanguage m ∧
          LanguageKey m' = LanguageKey m).
Proof.
  intros tf'. pose proof (autoTranslate_step cfg fetch langs keys tf) as Hstep.
  fold tf' in Hstep. destruct Hstep as (Href & Hnil & Hentries).
  split_and!; try done.
  - intros lang. specialize (Hentries lang).
    destruct (default ∅ (Languages tf) !! lang) as [[m|]|],
      (default ∅ (Languages tf') !! lang) as [[m'|]|]; simpl in *; done.
  - intros lang. specialize (Hentries lang).
    destruct (default ∅ (Languages tf) !! lang) as [[m|]|],
      (default ∅ (Languages tf') !! lang) as [[m'|]|]; simpl in *; done.
  - intros lang m' Hm'.
    destruct (dictStep_langPtr_back tf tf' lang m') as (m & Hm & Hkept & _);
      [by split_and!|done|].
    exists m. by destruct Hkept as (? & ? & _).
Qed.

(** X2.  Whatever way sync ends, a language entry without a target-language
    code is the entry it was: nothing is added to it, and its map is not
    even made. *)
Theorem autoTranslate_skips_entry cfg fetch langs keys tf lang m :
  langPtr tf lang = Some m →
  DeeplLanguage m = "" →
  langPtr (autoTranslate cfg fetch langs keys tf).1.2 lang = Some m.
Proof.
  intros Hm Hcode.
  destruct (dictStep_langPtr tf _ lang m
              (autoTranslate_step cfg fetch langs keys tf) Hm)
    as (m' & Hm' & _ & Hsame).
  by rewrite Hm', (Hsame Hcode).
Qed.

Lemma autoTranslate_skips_entry_witness :
  langPtr (autoTranslate sampleCfg echo ["xx"; "de"] ["hello"; "steps"]
             dictTwo).1.2 "xx" = Some xxEmpty.
Proof.
  apply (autoTranslate_skips_entry sampleCfg echo ["xx"; "de"]
           ["hello"; "steps"] dictTwo "xx" xxEmpty).
  - vm_compute. reflexivity.
  - reflexivity.
Defined.

(** ** The calls of a run *)

Lemma callFor_back tf tf' c :
  dictStep tf tf' → callFor tf' c → callFor tf c.
Proof.
  intros Hstep (Hsrc & Hdst & lang & m' & key & Hm' & Hcode & Hnil & Htext).
  pose proof Hstep as (Href & _ & _).
  destruct (dictStep_langPtr_back _ _ _ _ Hstep Hm')
    as (m & Hm & (Hd & _ & Hkeys) & _).
  split_and!; [congruence|done|]. exists lang, m, key. split_and!.
  - done.
  - congruence.
  - destruct (isNil (index (Translations m) key)) eqn:Hnil0; [done|].
    apply lookup_index in Hnil0 as Hlook.
    destruct (Hkeys _ _ Hlook) as [_ Hkeep].
    rewrite (index_lookup _ _ _ (Hkeep Hnil0)) in Hnil. congruence.
  - by rewrite <- Href.
Qed.

Section SyncCalls.

Variable cfg : config.
Variable fetch : string → string → string → result string.

(** The loop over a sequence sends its elements, and nothing else. *)
Lemma translateSlice_calls src dst l : ∀ acc,
  Forall (λ c : call, c.1.1 = src ∧ c.1.2 = dst ∧ AString c.2 ∈ l)
         (translateSlice fetch src dst l acc).2.
Proof.
  induction l as [|v l IH]; intros acc; simpl; [done|].
  destruct v as [|s|?|?|? ?]; try done.
  destruct (fetch src dst s) as [t|e].
  - specialize (IH (acc ++ [t])).
    destruct (translateSlice _ _ _ _ _) as [r cs]; simpl in *.
    constructor; [split_and!; try done; left|].
    eapply Forall_impl; [exact IH|]. intros c (? & ? & ?).
    split_and!; try done. by right.
  - constructor; [|done]. split_and!; try done. left.
Qed.

Lemma autoTranslateKeyForLang_calls tf lang key :
  (∀ m, langPtr tf lang = Some m → DeeplLanguage m ≠ "") →
  Forall (callFor tf) (autoTranslateKeyForLang fetch tf lang key).2.
Proof.
  intros Hcode. unfold autoTranslateKeyForLang.
  destruct (langPtr tf lang) as [m|] eqn:Hm; [|done].
  specialize (Hcode m eq_refl).
  destruct (isNil (index (Translations m) key)) eqn:Hnil; [|done].
  assert (Hcall : ∀ c : call,
    c.1.1 = DeeplLanguage (Reference tf) → c.1.2 = DeeplLanguage m →
    refText (index (Translations (Reference tf)) key) c.2 → callFor tf c).
  { intros c Hsrc Hdst Htext. split_and!; [done|congruence|].
    by exists lang, m, key. }
  destruct (index (Translations (Reference tf)) key) as [|s|l|?|? ?] eqn:Hv;
    simpl; try done.
  - assert (callFor tf (DeeplLanguage (Reference tf), DeeplLanguage m, s))
      by (apply Hcall; try done; by left).
    destruct (fetch _ _ s); simpl; by constructor.
  - pose proof (translateSlice_calls (DeeplLanguage (Reference tf))
                  (DeeplLanguage m) l []) as Hcs.
    assert (Hall : Forall (callFor tf)
      (translateSlice fetch (DeeplLanguage (Reference tf))
         (DeeplLanguage m) l []).2).
    { eapply Forall_impl; [exact Hcs|]. intros c (? & ? & ?).
      apply Hcall; try done. right. by exists l. }
    by destruct (translateSlice _ _ _ _ _) as [[[ts|e]|p] cs].
Qed.

Lemma translateKeys_calls lang keys : ∀ tf,
  (∀ m, langPtr tf lang = Some m → DeeplLanguage m ≠ "") →
  Forall (callFor tf) (translateKeys fetch tf lang keys).2.
Proof.
  induction keys as [|key keys IH]; intros tf Hcode; simpl; [done|].
  pose proof (autoTranslateKeyForLang_step fetch tf lang key Hcode) as Hstep.
  pose proof (autoTranslateKeyForLang_calls tf lang key Hcode) as Hcs.
  destruct (autoTranslateKeyForLang _ _ _ _) as [[[[e|]|p] tf1] cs];
    simpl in *; try done.
  assert (Hcode1 : ∀ m, langPtr tf1 lang = Some m → DeeplLanguage m ≠ "").
  { intros m1 Hm1.
    destruct (dictStep_langPtr_back _ _ _ _ Hstep Hm1) as (m & Hm & Hk & _).
    destruct Hk as (-> & _). by apply Hcode. }
  pose proof (IH tf1 Hcode1) as Hrest.
  destruct (translateKeys _ _ _ _) as [[r tf2] cs2]; simpl in *.
  apply Forall_app. split; [done|].
  eapply Forall_impl; [exact Hrest|]. intros c. by apply callFor_back.
Qed.

Lemma translateLangs_calls keys langs : ∀ tf,
  Forall (callFor tf) (translateLangs fetch tf langs keys).2.
Proof.
  induction langs as [|lang langs IH]; intros tf; simpl; [done|].
  destruct (langPtr tf lang) as [m|] eqn:Hm; [|done].
  case_decide as Hcode; [apply IH|].
  assert (Hc : ∀ m', langPtr tf lang = Some m' → DeeplLanguage m' ≠ "").
  { intros m' Hm'. rewrite Hm in Hm'. by injection Hm' as <-. }
  pose proof (translateKeys_step fetch lang keys tf Hc) as Hstep.
  pose proof (translateKeys_calls lang keys tf Hc) as Hcs.
  destruct (translateKeys _ _ _ _) as [[[[e|]|p] tf1] cs]; simpl in *; try done.
  pose proof (IH tf1) as Hrest.
  destruct (translateLangs _ _ _ _) as [[r tf2] cs2]; simpl in *.
  apply Forall_app. split; [done|].
  eapply Forall_impl; [exact Hrest|]. intros c. by apply callFor_back.
Qed.

(** ** The run stops at the first call that fails *)

Lemma translateSlice_stops src dst l : ∀ acc,
  match (translateSlice fetch src dst l acc).1 with
  | Return (Err e) =>
      ∃ cs0 c, (translateSlice fetch src dst l acc).2 = cs0 ++ [c] ∧
               Forall (succeeded fetch) cs0 ∧
               fetch c.1.1 c.1.2 c.2 = Err e
  | _ => Forall (succeeded fetch) (translateSlice fetch src dst l acc).2
  end.
Proof.
  induction l as [|v l IH]; intros acc; simpl; [by constructor|].
  destruct v as [|s|?|?|? ?]; simpl; try by constructor.
  destruct (fetch src dst s) as [t|e] eqn:Hs; simpl.
  - specialize (IH (acc ++ [t])).
    destruct (translateSlice _ _ _ _ _) as [[[ts|e]|p] cs]; simpl in *.
    + constructor; [by exists t|done].
    + destruct IH as (cs0 & c & -> & Hall & Hc).
      exists ((src, dst, s) :: cs0), c. split_and!; [done| |done].
      constructor; [by exists t|done].
    + constructor; [by exists t|done].
  - exists [], (src, dst, s). by split_and!.
Qed.

Lemma stopsAtFailure_app r cs cs' :
  Forall (succeeded fetch) cs → stopsAtFailure fetch r cs' →
  stopsAtFailure fetch r (cs ++ cs').
Proof.
  intros Hcs. destruct r as [[e|]|p]; simpl.
  - intros [(v & Hv & Hall)|(cs0 & c & err & -> & Hall & Hc & He)].
    + left. exists v. split; [done|]. by apply Forall_app.
    + right. exists (cs ++ cs0), c, err. rewrite app_assoc.
      split_and!; try done. by apply Forall_app.
  - intros Hall. by apply Forall_app.
  - intros Hall. by apply Forall_app.
Qed.

Lemma stopsAtFailure_wrap e msg cs :
  stopsAtFailure fetch (Return (Some e)) cs →
  stopsAtFailure fetch (Return (Some (Wrap e msg))) cs.
Proof. done. Qed.

Lemma autoTranslateKeyForLang_stops tf lang key :
  stopsAtFailure fetch (autoTranslateKeyForLang fetch tf lang key).1.1
    (autoTranslateKeyForLang fetch tf lang key).2.
Proof.
  unfold autoTranslateKeyForLang.
  destruct (langPtr tf lang) as [m|]; [|by constructor].
  destruct (isNil (index (Translations m) key)); [|by constructor].
  destruct (index (Translations (Reference tf)) key) as [|s|l|l'|ty rp];
    simpl.
  - left. by exists ANil.
  - destruct (fetch _ _ s) as [t|e] eqn:Hs; simpl.
    + constructor; [by exists t|done].
    + right. by exists [], (DeeplLanguage (Reference tf), DeeplLanguage m, s), e.
  - pose proof (translateSlice_stops (DeeplLanguage (Reference tf))
                  (DeeplLanguage m) l []) as Hl.
    destruct (translateSlice _ _ _ _ _) as [[[ts|e]|p] cs]; simpl in *;
      try done.
    destruct Hl as (cs0 & c & -> & Hall & Hc). right. by exists cs0, c, e.
  - left. by exists (AStrings l').
  - left. by exists (AOther ty rp).
Qed.

Lemma translateKeys_stops lang keys : ∀ tf,
  stopsAtFailure fetch (translateKeys fetch tf lang keys).1.1
    (translateKeys fetch tf lang keys).2.
Proof.
  induction keys as [|key keys IH]; intros tf; simpl; [by constructor|].
  pose proof (autoTranslateKeyForLang_stops tf lang key) as Hstep.
  destruct (autoTranslateKeyForLang _ _ _ _) as [[[[e|]|p] tf1] cs];
    simpl in *; try done.
  pose proof (IH tf1) as Hrest.
  destruct (translateKeys _ _ _ _) as [[r tf2] cs2]; simpl in *.
  by apply stopsAtFailure_app.
Qed.

Lemma translateLangs_stops keys langs : ∀ tf,
  stopsAtFailure fetch (translateLangs fetch tf langs keys).1.1
    (translateLangs fetch tf langs keys).2.
Proof.
  induction langs as [|lang langs IH]; intros tf; simpl; [by constructor|].
  destruct (langPtr tf lang) as [m|]; [|by constructor].
  case_decide; [apply IH|].
  pose proof (translateKeys_stops lang keys tf) as Hstep.
  destruct (translateKeys _ _ _ _) as [[[[e|]|p] tf1] cs]; simpl in *; try done.
  pose proof (IH tf1) as Hrest.
  destruct (translateLangs _ _ _ _) as [[r tf2] cs2]; simpl in *.
  by apply stopsAtFailure_app.
Qed.

End SyncCalls.

(** X3.  Whatever way sync ends, every call it has issued goes from the
    language of the reference to the target-language code of a language
    entry that has one, and carries a text the reference holds, as a value
    or as an element of a sequence, under a key that was missing from that
    entry before the run. *)
Theorem autoTranslate_calls_asked_for cfg fetch langs keys tf :
  Forall (callFor tf) (autoTranslate cfg fetch langs keys tf).2.
Proof.
  unfold autoTranslate. case_decide; [done|]. apply translateLangs_calls.
Qed.

(** X4.  Sync stops at the first call that fails: every call of a run was
    answered with a text, except that when the run returns an error that is
    not the unsupported-type error, the last call is the one the client
    failed, and the error returned has the cause of the client's error. *)
Theorem autoTranslate_stops_at_failure cfg fetch langs keys tf :
  stopsAtFailure fetch (autoTranslate cfg fetch langs keys tf).1.1
    (autoTranslate cfg fetch langs keys tf).2.
Proof.
  unfold autoTranslate. case_decide; [by constructor|].
  apply translateLangs_stops.
Qed.

(** ** When sync returns nil *)

Section SyncSuccess.

Variable cfg : config.
Variable fetch : string → string → string → result string.

(** With a client that answers every text, the loop over a sequence of
    texts returns a slice. *)
Lemma translateSlice_texts_Ok src dst ss : ∀ acc,
  (∀ s, s ∈ ss → ∃ t, fetch src dst s = Ok t) →
  ∃ ts, (translateSlice fetch src dst (AString <$> ss) acc).1 = Return (Ok ts).
Proof.
  induction ss as [|s ss IH]; intros acc Hall; simpl; [by eexists|].
  destruct (Hall s) as [t Ht]; [left|]. rewrite Ht.
  destruct (IH (acc ++ [t])) as [ts Hts].
  { intros s' Hs'. apply Hall. by right. }
  destruct (translateSlice _ _ _ _ _) as [r cs]. by exists ts.
Qed.

Lemma cellOk_texts ref m key :
  (isNil (index (Translations m) key) = true →
   (∃ s t, index (Translations ref) key = AString s ∧
           fetch (DeeplLanguage ref) (DeeplLanguage m) s = Ok t) ∨
   (∃ ss, index (Translations ref) key = ASlice (AString <$> ss) ∧
          ∀ s, s ∈ ss →
               ∃ t, fetch (DeeplLanguage ref) (DeeplLanguage m) s = Ok t)) →
  cellOk fetch ref m key = true.
Proof.
  intros H. unfold cellOk.
  destruct (isNil (index (Translations m) key)); [|done].
  apply bool_decide_eq_true.
  destruct (H eq_refl) as [(s & t & -> & Ht)|(ss & -> & Hall)]; simpl.
  - by rewrite Ht.
  - destruct (translateSlice_texts_Ok _ _ ss [] Hall) as [ts Hts].
    destruct (translateSlice _ _ _ _ _) as [r cs]; simpl in *. by subst r.
Qed.

End SyncSuccess.

(** X5.  After a sync run that returns nil with the API key set, no
    reference key is missing from any language entry that has a
    target-language code: each holds a value that is not null, whether it
    was there before or not. *)
Theorem autoTranslate_leaves_nothing_missing cfg fetch langs keys tf tf' cs
    lang m' key v :
  DeeplAPIKey cfg ≠ "" →
  rangeOrder (Languages tf) langs →
  rangeOrder (Translations (Reference tf)) keys →
  autoTranslate cfg fetch langs keys tf = (Return None, tf', cs) →
  langPtr tf' lang = Some m' →
  DeeplLanguage m' ≠ "" →
  default ∅ (Translations (Reference tf)) !! key = Some v →
  ∃ w, default ∅ (Translations m') !! key = Some w ∧ isNil w = false.
Proof.
  intros Hkey Hl Hk Hrun Hm' Hcode Hv.
  apply autoTranslate_success in Hrun as (Hok & -> & ->);
    [|done|apply Hl|apply Hk].
  pose proof (rangeOrder_elem_of _ _ _ _ Hk Hv) as Hin.
  destruct (langPtr tf lang) as [m|] eqn:Hm.
  2:{ by rewrite (langPtr_foldl_fillLang_None fetch keys langs tf lang) in Hm'. }
  pose proof (rangeOrder_langPtr _ _ _ _ Hl Hm) as Hlang.
  rewrite (langPtr_foldl_fillLang fetch keys langs tf lang m) in Hm'
    by (done || apply Hl).
  rewrite decide_True in Hm' by done. injection Hm' as <-.
  rewrite forallb_elem_of in Hok. specialize (Hok lang Hlang).
  unfold langOk in Hok. rewrite Hm in Hok. unfold fillEntry in *.
  destruct (decide (DeeplLanguage m = "")) as [|_]; [done|].
  rewrite forallb_elem_of in Hok. specialize (Hok key Hin).
  pose proof (index_foldl_fillKey_not_nil fetch (Reference tf) keys m key
                Hin Hok) as Hnot.
  eexists. split; [by apply lookup_index|done].
Qed.

Lemma autoTranslate_leaves_nothing_missing_witness :
  ∃ w, default ∅ (Translations deShort) !! "steps" = Some w ∧ isNil w = false.
Proof.
  apply (autoTranslate_leaves_nothing_missing sampleCfg echo ["de"]
           ["hello"; "steps"] dictShort dictShort [] "de" deShort "steps"
           (ASlice [AString "one"; AString "two"])).
  - discriminate.
  - apply (rangeOrder_list_to_map [("de", Some deShort)]). nodup_by_computation.
  - apply (rangeOrder_list_to_map
             [("hello", AString "hi");
              ("steps", ASlice [AString "one"; AString "two"])]).
    nodup_by_computation.
  - vm_compute. reflexivity.
  - vm_compute. reflexivity.
  - discriminate.
  - vm_compute. reflexivity.
Defined.

(** X6.  Sync returns nil when no language holds a nil pointer, every
    reference value is a text or a sequence of texts, and the client
    answers every text. *)
Theorem autoTranslate_returns_nil cfg fetch langs keys tf :
  rangeOrder (Languages tf) langs →
  rangeOrder (Translations (Reference tf)) keys →
  (∀ lang, default ∅ (Languages tf) !! lang ≠ Some None) →
  (∀ key v, default ∅ (Translations (Reference tf)) !! key = Some v →
            (∃ s, v = AString s) ∨ (∃ ss, v = ASlice (AString <$> ss))) →
  (∀ src dst s, ∃ t, fetch src dst s = Ok t) →
  (autoTranslate cfg fetch langs keys tf).1.1 = Return None.
Proof.
  intros Hl Hk Hptr Hvals Hfetch.
  destruct (decide (DeeplAPIKey cfg = "")) as [Hkey|Hkey].
  { unfold autoTranslate. by rewrite decide_True. }
  pose proof (autoTranslate_cells cfg fetch langs keys tf Hkey
                (proj1 Hl) (proj1 Hk)) as Hcells.
  assert (Hok : forallb (langOk fetch tf keys) langs = true).
  { apply forallb_elem_of. intros lang Hlang. unfold langOk.
    apply Hl in Hlang as [e He]. rewrite langPtr_alt, He.
    destruct e as [m|]; [simpl|by destruct (Hptr lang)].
    case_decide; [done|]. apply forallb_elem_of. intros key Hkin.
    apply Hk in Hkin as [v Hv]. apply cellOk_texts. intros _.
    rewrite (index_lookup _ _ _ Hv).
    destruct (Hvals key v Hv) as [[s ->]|[ss ->]].
    - left. destruct (Hfetch (DeeplLanguage (Reference tf))
                        (DeeplLanguage m) s) as [t Ht]. by exists s, t.
    - right. exists ss. split; [done|]. intros. apply Hfetch. }
  rewrite Hok in Hcells. by rewrite Hcells.
Qed.

Lemma autoTranslate_returns_nil_witness :
  (autoTranslate sampleCfg echo ["de"] ["hello"; "steps"] dictFresh).1.1
  = Return None.
Proof.
  apply (autoTranslate_returns_nil sampleCfg echo ["de"] ["hello"; "steps"]
           dictFresh).
  - apply (rangeOrder_list_to_map [("de", Some deEmpty)]). nodup_by_computation.
  - apply (rangeOrder_list_to_map
             [("hello", AString "hi");
              ("steps", ASlice [AString "one"; AString "two"])]).
    nodup_by_computation.
  - intros lang. change (default ∅ (Languages dictFresh))
      with (<["de" := Some deEmpty]> (∅ : gmap string (option translationMapping))).
    rewrite lookup_insert. case_decide; [done|]. by rewrite lookup_empty.
  - intros key v. change (default ∅ (Translations (Reference dictFresh)))
      with (<["hello" := AString "hi"]>
              (<["steps" := ASlice [AString "one"; AString "two"]]>
                 (∅ : gmap string any))).
    rewrite !lookup_insert. repeat case_decide.
    + intros [= <-]. left. by eexists.
    + intros [= <-]. right. by exists ["one"; "two"].
    + by rewrite lookup_empty.
  - intros src dst s. by eexists.
Defined.

(** X7.  With the API key set, a language that holds a nil pointer makes
    sync panic when it is the first language the range yields, and keeps
    sync from returning nil wherever the range puts it. *)
Theorem autoTranslate_nil_entry cfg fetch langs keys tf lang :
  DeeplAPIKey cfg ≠ "" →
  NoDup langs → NoDup keys →
  lang ∈ langs →
  default ∅ (Languages tf) !! lang = Some None →
  (autoTranslate cfg fetch langs keys tf).1.1 ≠ Return None ∧
  ∀ rest, autoTranslate cfg fetch (lang :: rest) keys tf =
            (Panic nilDeref, tf, []).
Proof.
  intros Hkey Hnl Hnk Hlang Hnil.
  assert (Hptr : langPtr tf lang = None) by (by rewrite langPtr_alt, Hnil).
  split.
  - pose proof (autoTranslate_cells cfg fetch langs keys tf Hkey Hnl Hnk) as H.
    destruct (forallb (langOk fetch tf keys) langs) eqn:Hok; [|done].
    rewrite forallb_elem_of in Hok. specialize (Hok lang Hlang).
    unfold langOk in Hok. by rewrite Hptr in Hok.
  - intros rest. unfold autoTranslate. rewrite decide_False by done.
    simpl. by rewrite Hptr.
Qed.

Lemma autoTranslate_nil_entry_witness :
  (autoTranslate sampleCfg echo ["de"] ["hello"; "steps"] dictNilEntry).1.1
    ≠ Return None ∧
  ∀ rest, autoTranslate sampleCfg echo ("de" :: rest) ["hello"; "steps"]
            dictNilEntry = (Panic nilDeref, dictNilEntry, []).
Proof.
  apply (autoTranslate_nil_entry sampleCfg echo ["de"] ["hello"; "steps"]
           dictNilEntry "de").
  - discriminate.
  - nodup_by_computation.
  - nodup_by_computation.
  - left.
  - vm_compute. reflexivity.
Defined.

(** * Further properties of the store, the renderer and the pipeline *)

Lemma prefix_refl (s : string) : String.prefix s s = true.
Proof.
  induction s as [|c s IH]; [done|]. cbn [String.prefix].
  by destruct (Ascii.ascii_dec c c).
Qed.

Lemma prefix_substring (n : nat) : ∀ s : string,
  String.prefix (String.substring 0 n s) s = true.
Proof.
  induction n as [|n IH]; intros [|c s]; try done.
  cbn [String.substring String.prefix].
  destruct (Ascii.ascii_dec c c); [apply IH|done].
Qed.

(** X8.  A save writes under two paths only, the dictionary file and its
    temporary file.  When it succeeds the dictionary file holds the
    encoding and the temporary file is gone; when the temporary file
    cannot be created no file changes; when a later step fails the
    temporary file stays behind, holding the encoding or a prefix of it. *)
Theorem saveTranslationFile_paths cfg yamlEncode io tf d :
  let path := TranslationFile cfg in
  let tmp := TranslationFile cfg +:+ ".tmp" in
  let r := saveTranslationFile cfg yamlEncode io tf d in
  (∀ p, p ≠ path → p ≠ tmp → r.2 !! p = d !! p) ∧
  (r.1 = Ok () →
     r.2 !! path = Some (yamlEncode tf) ∧ r.2 !! tmp = None) ∧
  (is_Some (createFails io) → r.2 = d) ∧
  (∀ e, r.1 = Err e → createFails io = None →
     ∃ content, r.2 !! tmp = Some content ∧
                String.prefix content (yamlEncode tf) = true).
Proof.
  intros path tmp r. subst path tmp r. unfold saveTranslationFile, rename.
  pose proof (tmp_path_ne (TranslationFile cfg)) as Hne.
  destruct (createFails io) as [e0|]; simpl.
  { split_and!; try done. }
  assert (Hnone : ¬ is_Some (@None error)) by (by intros [? [=]]).
  destruct (writeFails io) as [[n e1]|]; simpl.
  { split_and!; try done.
    - intros p Hp Htmp. by rewrite !lookup_insert_ne.
    - intros e _ _. eexists. rewrite lookup_insert_eq. split; [done|].
      apply prefix_substring. }
  destruct (renameFails io) as [e2|]; simpl.
  { split_and!; try done.
    - intros p Hp Htmp. by rewrite !lookup_insert_ne.
    - intros e _ _. eexists. rewrite lookup_insert_eq. split; [done|].
      apply prefix_refl. }
  rewrite lookup_insert_eq; simpl. split_and!; try done.
  - intros p Hp Htmp.
    rewrite lookup_insert_ne, lookup_delete_ne, !lookup_insert_ne; done.
  - intros _. split; [apply lookup_insert_eq|].
    rewrite lookup_insert_ne by done. apply lookup_delete_eq.
Qed.

Section RenderMore.

Variable cfg : config.
Variable jsonMarshal : translation → result string.

(** The range of the template ends without an error exactly when every
    language it is given is an entry whose mapping marshals. *)
Lemma renderBlocks_None_iff ls langs :
  (renderBlocks jsonMarshal ls langs).2 = None ↔
  ∀ lang, lang ∈ langs →
    ∃ m j, ls !! lang = Some (Some m) ∧ jsonMarshal (Translations m) = Ok j.
Proof.
  induction langs as [|lang langs IH]; simpl.
  { split; [|done]. intros _ l Hl. inversion Hl. }
  destruct (ls !! lang) as [[m|]|] eqn:Hm; simpl.
  - unfold ToJSON.
    destruct (jsonMarshal (Translations m)) as [j|e] eqn:Hj.
    + destruct (renderBlocks jsonMarshal ls langs) as [out err] eqn:Hrest.
      simpl in *. rewrite IH. split.
      * intros H l [->|Hl]%elem_of_cons; [by exists m, j|by apply H].
      * intros H l Hl. apply H. by right.
    + split; [done|]. intros H. destruct (H lang) as (m' & j & Hm' & Hj');
        [left|]. congruence.
  - split; [done|]. intros H. destruct (H lang) as (m' & j & Hm' & _);
      [left|]. congruence.
  - split; [done|]. intros H. destruct (H lang) as (m' & j & Hm' & _);
      [left|]. congruence.
Qed.

Lemma executeTemplate_err tf :
  (executeTemplate jsonMarshal tf).2 =
  (renderBlocks jsonMarshal (default ∅ (Languages tf))
     (sortedKeys (default ∅ (Languages tf)))).2.
Proof.
  unfold executeTemplate. by destruct (renderBlocks _ _ _) as [out [e|]].
Qed.

(** A render that succeeds has put the text of the template under the
    output path, through the temporary file, which is gone. *)
Lemma renderJSFile_Ok io tf d d' :
  renderJSFile cfg jsonMarshal io tf d = (Ok (), d') →
  (executeTemplate jsonMarshal tf).2 = None ∧
  d' = <[OutputFile cfg := (executeTemplate jsonMarshal tf).1]>
         (delete (OutputFile cfg +:+ ".tmp") d).
Proof.
  unfold renderJSFile, rename.
  destruct (createFails io) as [e|]; [done|].
  destruct (executeTemplate jsonMarshal tf) as [out [e|]];
    destruct (writeFails io) as [[n e']|]; try done.
  destruct (renameFails io) as [e|]; [done|].
  rewrite lookup_insert_eq. intros [= <-]. split; [done|]. simpl.
  by rewrite insert_insert_eq, delete_insert_eq.
Qed.

End RenderMore.

(** X9.  A render writes under two paths only, the output file and its
    temporary file.  When it fails, at whichever step, the output file
    holds what it held; when it succeeds the output file holds the text of
    the template and the temporary file is gone; and when the template
    stops on an error, the text written up to the error stays behind in
    the temporary file. *)
Theorem renderJSFile_paths cfg jsonMarshal io tf d :
  let path := OutputFile cfg in
  let tmp := OutputFile cfg +:+ ".tmp" in
  let out := (executeTemplate jsonMarshal tf).1 in
  let r := renderJSFile cfg jsonMarshal io tf d in
  (∀ p, p ≠ path → p ≠ tmp → r.2 !! p = d !! p) ∧
  (∀ e, r.1 = Err e → r.2 !! path = d !! path) ∧
  (r.1 = Ok () →
     (executeTemplate jsonMarshal tf).2 = None ∧
     r.2 !! path = Some out ∧ r.2 !! tmp = None) ∧
  (∀ e, (executeTemplate jsonMarshal tf).2 = Some e →
        createFails io = None → writeFails io = None →
        r.1 = Err (Wrap e "rendering js template") ∧ r.2 !! tmp = Some out).
Proof.
  intros path tmp out r. subst path tmp out r.
  pose proof (tmp_path_ne (OutputFile cfg)) as Hne.
  split_and!.
  - intros p Hp Htmp. unfold renderJSFile, rename.
    destruct (createFails io) as [e|]; [done|].
    destruct (executeTemplate jsonMarshal tf) as [out [e|]];
      destruct (writeFails io) as [[n e']|]; simpl;
      try by rewrite !lookup_insert_ne.
    destruct (renameFails io) as [e|]; simpl;
      [by rewrite !lookup_insert_ne|].
    rewrite lookup_insert_eq; simpl.
    rewrite lookup_insert_ne, lookup_delete_ne, !lookup_insert_ne; done.
  - intros e. unfold renderJSFile.
    destruct (createFails io) as [e0|]; [done|].
    destruct (executeTemplate jsonMarshal tf) as [out [e1|]];
      destruct (writeFails io) as [[n e']|]; simpl;
      try by rewrite !lookup_insert_ne.
    destruct (renameFails io) as [e2|]; simpl; [|done].
    by rewrite !lookup_insert_ne.
  - intros Hok.
    destruct (renderJSFile cfg jsonMarshal io tf d) as [r d'] eqn:Hrun.
    simpl in Hok. subst r.
    apply renderJSFile_Ok in Hrun as [Hnone ->]. simpl. split_and!.
    + done.
    + apply lookup_insert_eq.
    + rewrite lookup_insert_ne by done. apply lookup_delete_eq.
  - intros e He Hcreate Hwrite. unfold renderJSFile.
    rewrite Hcreate, Hwrite.
    destruct (executeTemplate jsonMarshal tf) as [out [e1|]]; simpl in *;
      [|done].
    injection He as ->. split; [done|]. apply lookup_insert_eq.
Qed.

(** X10.  The template executes without an error exactly when every
    language of the dictionary it is given is an entry, not a nil pointer,
    whose mapping [json.Marshal] accepts. *)
Theorem executeTemplate_succeeds_iff jsonMarshal tf :
  (executeTemplate jsonMarshal tf).2 = None ↔
  ∀ lang e, default ∅ (Languages tf) !! lang = Some e →
    ∃ m j, e = Some m ∧ jsonMarshal (Translations m) = Ok j.
Proof.
  rewrite executeTemplate_err, renderBlocks_None_iff. split.
  - intros H lang e He. destruct (H lang) as (m & j & Hm & Hj).
    + apply sortedKeys_elem_of. by rewrite He.
    + exists m, j. split; [congruence|done].
  - intros H lang [e He]%sortedKeys_elem_of.
    destruct (H lang e He) as (m & j & -> & Hj). by exists m, j.
Qed.

(** X11.  A run that ends well, with an output path that is neither the
    dictionary path nor turns into it by its temporary suffix, has loaded a
    dictionary, synced it with the calls the run reports, put the encoding
    of the synced dictionary in the dictionary file, and put in the output
    file the text of the template on the render view of the synced
    dictionary.  The render view itself is not what is saved. *)
Theorem main_ends_well cfg fetch yamlEncode yamlDecode jsonMarshal
    loadIO saveIO renderIO langs keys d d' cs :
  VersionAndExit cfg = false →
  OutputFile cfg ≠ TranslationFile cfg →
  OutputFile cfg +:+ ".tmp" ≠ TranslationFile cfg →
  main cfg fetch yamlEncode yamlDecode jsonMarshal
    loadIO saveIO renderIO langs keys d = (ExitOk, d', cs) →
  ∃ tf tf1 view out,
    loadTranslationFile cfg yamlDecode loadIO d = Ok tf ∧
    autoTranslate cfg fetch langs keys tf = (Return None, tf1, cs) ∧
    renderView tf1 = Return view ∧
    executeTemplate jsonMarshal view = (out, None) ∧
    d' !! TranslationFile cfg = Some (yamlEncode tf1) ∧
    d' !! OutputFile cfg = Some out.
Proof.
  intros Hversion Hpath Htmp. unfold main. rewrite Hversion.
  destruct (loadTranslationFile cfg yamlDecode loadIO d) as [tf|e] eqn:Hload;
    [|done].
  destruct (autoTranslate cfg fetch langs keys tf) as [[[[e|]|p] tf1] cs0]
    eqn:Hrun; try done.
  destruct (saveTranslationFile cfg yamlEncode saveIO tf1 d) as [[[]|e] d1]
    eqn:Hsave; [|done].
  destruct (renderView tf1) as [view|p] eqn:Hview; [|done].
  destruct (renderJSFile cfg jsonMarshal renderIO view d1) as [[[]|e] d2]
    eqn:Hrender; [|done].
  intros [= <- <-].
  apply saveTranslationFile_Ok in Hsave as ->.
  apply renderJSFile_Ok in Hrender as [Hnone ->].
  exists tf, tf1, view, (executeTemplate jsonMarshal view).1. split_and!.
  - done.
  - done.
  - done.
  - destruct (executeTemplate jsonMarshal view) as [out err]; simpl in *.
    by subst err.
  - rewrite lookup_insert_ne, lookup_delete_ne by done.
    apply lookup_insert_eq.
  - apply lookup_insert_eq.
Qed.

Lemma main_ends_well_witness :
  ∃ tf tf1 view out,
    loadTranslationFile sampleCfg decodeFresh noFaults diskOld = Ok tf ∧
    autoTranslate sampleCfg echo ["de"] ["hello"; "steps"] tf =
      (Return None, tf1,
       (main sampleCfg echo encodeFresh decodeFresh marshalIts
          noFaults noFaults noFaults ["de"] ["hello"; "steps"] diskOld).2) ∧
    renderView tf1 = Return view ∧
    executeTemplate marshalIts view = (out, None) ∧
    (main sampleCfg echo encodeFresh decodeFresh marshalIts
       noFaults noFaults noFaults ["de"] ["hello"; "steps"] diskOld).1.2
      !! "i18n.yaml" = Some (encodeFresh tf1) ∧
    (main sampleCfg echo encodeFresh decodeFresh marshalIts
       noFaults noFaults noFaults ["de"] ["hello"; "steps"] diskOld).1.2
      !! "langs.js" = Some out.
Proof.
  apply (main_ends_well sampleCfg echo encodeFresh decodeFresh marshalIts
           noFaults noFaults noFaults ["de"] ["hello"; "steps"] diskOld).
  - reflexivity.
  - discriminate.
  - discriminate.
  - vm_compute. reflexivity.
Defined.

(** X12.  A dictionary file without any [translations] makes the run
    crash, but only after the dictionary is saved again: sync has nothing
    to range over and returns nil without a call, the save puts the
    encoding of the loaded dictionary in the dictionary file, and entering
    the reference into the nil language map panics before anything is
    rendered. *)
Theorem main_without_languages cfg fetch yamlEncode yamlDecode jsonMarshal
    loadIO renderIO langs keys d tf :
  VersionAndExit cfg = false →
  loadTranslationFile cfg yamlDecode loadIO d = Ok tf →
  Languages tf = None →
  rangeOrder (Languages tf) langs →
  main cfg fetch yamlEncode yamlDecode jsonMarshal
    loadIO noFaults renderIO langs keys d =
  (Crash nilMapWrite,
   <[TranslationFile cfg := yamlEncode tf]>
     (delete (TranslationFile cfg +:+ ".tmp") d),
   []).
Proof.
  intros Hversion Hload Hnil [_ Hlangs]. unfold main.
  rewrite Hversion, Hload.
  assert (langs = []) as ->.
  { destruct langs as [|l langs]; [done|].
    destruct (proj1 (Hlangs l)) as [x Hx]; [left|].
    by rewrite Hnil in Hx. }
  assert (Hrun : autoTranslate cfg fetch [] keys tf = (Return None, tf, [])).
  { unfold autoTranslate. by case_decide. }
  rewrite Hrun, saveTranslationFile_noFaults.
  unfold renderView. by rewrite Hnil.
Qed.

Lemma main_without_languages_witness :
  main sampleCfg echo encodeFresh decodeNoLangs marshalIts
    noFaults noFaults noFaults [] ["hello"; "steps"] diskOld =
  (Crash nilMapWrite,
   <[TranslationFile sampleCfg := encodeFresh dictNoLangs]>
     (delete (TranslationFile sampleCfg +:+ ".tmp") diskOld),
   []).
Proof.
  apply (main_without_languages sampleCfg echo encodeFresh decodeNoLangs
           marshalIts noFaults noFaults [] ["hello"; "steps"] diskOld
           dictNoLangs).
  - reflexivity.
  - reflexivity.
  - reflexivity.
  - split; [constructor|]. intros k. split; [intros Hk; inversion Hk|].
    intros [x Hx]. simpl in Hx. by rewrite lookup_empty in Hx.
Defined.

(** ** The calls of a run that returns nil *)

Lemma bind_ext_elem_of {A B : Type} (f g : A → list B) (l : list A) :
  (∀ x, x ∈ l → f x = g x) → l ≫= f = l ≫= g.
Proof.
  induction l as [|a l IH]; intros H; [done|].
  rewrite !bind_cons, H, IH; [done| |left]. intros x Hx. apply H. by right.
Qed.

Lemma cellCalls_texts fetch tf lang m key :
  langPtr tf lang = Some m →
  DeeplLanguage m ≠ "" →
  cellOk fetch (Reference tf) m key = true →
  cellCalls fetch (Reference tf) m key =
  (λ s, (DeeplLanguage (Reference tf),
         from_option DeeplLanguage "" (langPtr tf lang), s))
  <$> cellTexts tf lang key.
Proof.
  intros Hm Hcode Hok. unfold cellCalls, cellTexts, cellOk in *.
  rewrite Hm; simpl. rewrite decide_False by done.
  destruct (isNil (index (Translations m) key)); [|done].
  apply bool_decide_eq_true in Hok as [w Hw].
  destruct (index (Translations (Reference tf)) key) as [|s|l|?|? ?];
    simpl in *; try done.
  destruct (translateSlice _ _ _ _ _) as [[[ts|e]|p] cs] eqn:Hl; try done.
  apply translateSlice_Ok in Hl as (ss & ts' & -> & _ & _ & ->).
  by rewrite sliceTexts_fmap.
Qed.

(** X13.  A sync run that returns nil with the API key set has issued,
    language by language in the order of the range over the languages and
    key by key in the order of the range over the reference, one call for
    each missing text and one call for each element, in order, of each
    missing sequence; nothing for a key that is there, and nothing for an
    entry without a target-language code. *)
Theorem autoTranslate_calls_in_order cfg fetch langs keys tf tf' cs :
  DeeplAPIKey cfg ≠ "" →
  NoDup langs → NoDup keys →
  autoTranslate cfg fetch langs keys tf = (Return None, tf', cs) →
  cs = expectedCalls tf langs keys.
Proof.
  intros Hkey Hnl Hnk Hrun.
  apply autoTranslate_success in Hrun as (Hok & _ & ->); [|done..].
  rewrite forallb_elem_of in Hok. unfold expectedCalls.
  apply bind_ext_elem_of. intros lang Hlang. specialize (Hok lang Hlang).
  unfold langOk, langCalls in *.
  destruct (langPtr tf lang) as [m|] eqn:Hm; [|done].
  destruct (decide (DeeplLanguage m = "")) as [Hcode|Hcode].
  - transitivity (keys ≫= (λ _ : string, @nil call)).
    { clear. by induction keys. }
    apply bind_ext_elem_of. intros key _. unfold cellTexts.
    by rewrite Hm, decide_True.
  - rewrite forallb_elem_of in Hok. apply bind_ext_elem_of. intros key Hin.
    rewrite <- Hm. apply cellCalls_texts; [done..|by apply Hok].
Qed.

Lemma autoTranslate_calls_in_order_witness :
  (autoTranslate sampleCfg echo ["xx"; "de"] ["steps"; "hello"] dictTwo).2 =
  expectedCalls dictTwo ["xx"; "de"] ["steps"; "hello"].
Proof.
  apply (autoTranslate_calls_in_order sampleCfg echo ["xx"; "de"]
           ["steps"; "hello"] dictTwo
           (autoTranslate sampleCfg echo ["xx"; "de"] ["steps"; "hello"]
              dictTwo).1.2).
  - discriminate.
  - nodup_by_computation.
  - nodup_by_computation.
  - vm_compute. reflexivity.
Defined.

Example expectedCalls_dictTwo :
  expectedCalls dictTwo ["xx"; "de"] ["steps"; "hello"] =
  [("en", "de", "one"); ("en", "de", "two"); ("en", "de", "hi")].
Proof. vm_compute. reflexivity. Qed.

(** ** The store and the renderer on the sample files *)

Lemma saveTranslationFile_paths_witness :
  ∃ content,
    (saveTranslationFile sampleCfg encodeFresh diskFull dictFresh diskOld).2
      !! "i18n.yaml.tmp" = Some content ∧
    String.prefix content (encodeFresh dictFresh) = true.
Proof.
  destruct (saveTranslationFile_paths sampleCfg encodeFresh diskFull dictFresh
              diskOld) as (_ & _ & _ & Hleft).
  apply (Hleft (Wrap (New "no space left on device")
                  "encoding translation file")).
  - reflexivity.
  - reflexivity.
Defined.

Lemma renderJSFile_paths_witness :
  (renderJSFile sampleCfg marshalIts noFaults dictNilEntry diskOld).1 =
    Err (Wrap (New "nil pointer evaluating *main.translationMapping.Translations")
           "rendering js template") ∧
  (renderJSFile sampleCfg marshalIts noFaults dictNilEntry diskOld).2
    !! "langs.js.tmp" = Some (executeTemplate marshalIts dictNilEntry).1.
Proof.
  destruct (renderJSFile_paths sampleCfg marshalIts noFaults dictNilEntry
              diskOld) as (_ & _ & _ & Hstop).
  apply Hstop.
  - vm_compute. reflexivity.
  - reflexivity.
  - reflexivity.
Defined.
